(** * post-tags/process-post.py: the tag processor, embedded and verified

    A shallow embedding of [TagProcessor] (response parsing, the per-unit and
    per-file state machine, persistence of the three JSON documents and the
    worker interleavings), followed by the properties of the specification
    that were checked against it. *)

From Stdlib Require Import ZArith NArith List String Ascii Lia Bool DecimalString
  DecimalNat Sorted.
From stdpp Require Import gmap sets list.
Import ListNotations.

Local Open Scope nat_scope.
#[local] Set Warnings "-register-all,-clear-no-such-hyp".

(** ** Python [str]: a sequence of Unicode code points *)

(** [len], slicing, [strip] and the regular expressions of the source all
    work on code points, so a [str] is a list of code points and not a list
    of bytes: [len("标签")] is 2. *)
Abbreviation char := N (only parsing).
Abbreviation str := (list N) (only parsing).

Module Utf8.

(** Source literals are written as UTF-8 byte strings and decoded to code
    points; [need] continuation bytes are still expected and [acc] holds
    the bits read so far. *)
Fixpoint bytes (s : string) : list N :=
  match s with
  | EmptyString => []
  | String a s' => N_of_ascii a :: bytes s'
  end.

Fixpoint decode (need : nat) (acc : N) (bs : list N) : str :=
  match bs with
  | [] => []
  | b :: bs' =>
      match need with
      | O =>
          if (b <? 128)%N then b :: decode 0 0%N bs'
          else if (b <? 224)%N then decode 1 (b - 192)%N bs'
          else if (b <? 240)%N then decode 2 (b - 224)%N bs'
          else decode 3 (b - 240)%N bs'
      | S O => (acc * 64 + (b - 128))%N :: decode 0 0%N bs'
      | S n => decode n (acc * 64 + (b - 128))%N bs'
      end
  end.

Definition lit (s : string) : str := decode 0 0%N (bytes s).

End Utf8.

Notation "'u' s" := (Utf8.lit s%string) (at level 1, s at level 0, only parsing).

Module Str.

Definition COMMA : char := 44%N.   (* ',' *)
Definition HASH : char := 35%N.    (* '#' *)

(** [str.isspace] for one code point: the characters Python's argument-less
    [strip()] removes. *)
Definition isspace (c : char) : bool :=
  ((9 <=? c) && (c <=? 13) || (28 <=? c) && (c <=? 32)
   || (c =? 133) || (c =? 160) || (c =? 5760)
   || (8192 <=? c) && (c <=? 8202) || (c =? 8232) || (c =? 8233)
   || (c =? 8239) || (c =? 8287) || (c =? 12288))%N.

Fixpoint lstrip_by (p : char → bool) (s : str) : str :=
  match s with
  | [] => []
  | c :: t => if p c then lstrip_by p t else s
  end.

Definition rstrip_by (p : char → bool) (s : str) : str :=
  rev (lstrip_by p (rev s)).

Definition strip_by (p : char → bool) (s : str) : str :=
  rstrip_by p (lstrip_by p s).

(** [s.strip()] *)
Definition strip (s : str) : str := strip_by isspace s.

Definition mem (c : char) (chars : str) : bool := existsb (N.eqb c) chars.

(** [s.strip(chars)] *)
Definition strip_chars (chars : str) (s : str) : str :=
  strip_by (λ c, mem c chars) s.

(** [s.split(sep)] for a one-character separator: always at least one
    segment, empty segments kept. *)
Fixpoint split (sep : char) (s : str) : list str :=
  match s with
  | [] => [[]]
  | c :: t =>
      if (c =? sep)%N then [] :: split sep t
      else match split sep t with
           | seg :: rest => (c :: seg) :: rest
           | [] => [[c]]
           end
  end.

(** [str(n)] for a non-negative integer. *)
Definition of_nat (n : nat) : str :=
  Utf8.bytes (NilEmpty.string_of_uint (Nat.to_uint n)).

(** [s.lower() == t] where [t] is lower-case ASCII: only the ASCII capitals
    lower to ASCII letters. *)
Definition ascii_lower (c : char) : char :=
  if ((65 <=? c) && (c <=? 90))%N then (c + 32)%N else c.

Fixpoint eqb (a b : str) : bool :=
  match a, b with
  | [], [] => true
  | x :: a', y :: b' => (x =? y)%N && eqb a' b'
  | _, _ => false
  end.

(** Code-point lexicographic order, the order of [sorted] on strings. *)
Fixpoint leb (a b : str) : bool :=
  match a, b with
  | [], _ => true
  | _ :: _, [] => false
  | x :: a', y :: b' =>
      if (x <? y)%N then true
      else if (y <? x)%N then false
      else leb a' b'
  end.

End Str.

(** ** The two regular expressions of [generate_tags] *)

Module Re.

(** Longest prefix free of [#], and what follows it. *)
Fixpoint span_no_hash (s : str) : str * str :=
  match s with
  | [] => ([], [])
  | c :: t =>
      if (c =? Str.HASH)%N then ([], s)
      else let '(run, rest) := span_no_hash t in (c :: run, rest)
  end.

(** One attempt to match [#([^#]+)#] at the head of [s]: the captured
    group and the text after the match. [[^#]+] is greedy and cannot cross
    a [#], so no shorter run can succeed where the longest fails. *)
Definition match_plus (s : str) : option (str * str) :=
  match s with
  | c :: t =>
      if (c =? Str.HASH)%N then
        match span_no_hash t with
        | ((_ :: _) as group, _ :: rest) => Some (group, rest)
        | _ => None
        end
      else None
  | [] => None
  end.

(** One attempt to match [#[^#]*#] at the head of [s]: the text after the
    match. *)
Definition match_star (s : str) : option str :=
  match s with
  | c :: t =>
      if (c =? Str.HASH)%N then
        match span_no_hash t with
        | (_, _ :: rest) => Some rest
        | _ => None
        end
      else None
  | [] => None
  end.

(** [re.findall(r'#([^#]+)#', s)]: scan left to right, matches do not
    overlap, a failed position advances by one character. Every step
    consumes at least one character, so [length s] steps always suffice. *)
Fixpoint findall_fuel (fuel : nat) (s : str) : list str :=
  match fuel with
  | O => []
  | S fuel' =>
      match s with
      | [] => []
      | _ :: t =>
          match match_plus s with
          | Some (group, rest) => group :: findall_fuel fuel' rest
          | None => findall_fuel fuel' t
          end
      end
  end.

Definition findall (s : str) : list str := findall_fuel (length s) s.

(** [re.sub(r'#[^#]*#', '', s)] *)
Fixpoint sub_fuel (fuel : nat) (s : str) : str :=
  match fuel with
  | O => []
  | S fuel' =>
      match s with
      | [] => []
      | c :: t =>
          match match_star s with
          | Some rest => sub_fuel fuel' rest
          | None => c :: sub_fuel fuel' t
          end
      end
  end.

Definition sub (s : str) : str := sub_fuel (length s) s.

End Re.

(** ** Response parsing ([generate_tags], lines 206-243) *)

Module Parser.

(** The argument of [tag.strip(...)] on line 234. The source writes two
    adjacent literals which Python concatenates: the full-width comma, the
    ideographic full stop, the full-width ! ? ; : and the ASCII double quote
    (twice) in the first, the brackets （ ） 【 】 《 》 in the second. The
    single quotes of that line are the delimiters of the two literals. *)
Definition PUNCT : str :=
  [65292; 12290; 65281; 65311; 65307; 65306; 34; 34;
   65288; 65289; 12304; 12305; 12298; 12299]%N.

(** The body of the loop over [tags_text.split(',')]. *)
Definition candidates (tag_part : str) : list str :=
  let tag_part := Str.strip tag_part in
  match tag_part with
  | [] => []
  | _ :: _ =>
      if Str.mem Str.HASH tag_part then
        let hashtag_matches := Re.findall tag_part in
        let non_hashtag := Str.strip (Re.sub tag_part) in
        hashtag_matches ++
          match non_hashtag with [] => [] | _ :: _ => [non_hashtag] end
      else [tag_part]
  end.

Definition raw_tags (tags_text : str) : list str :=
  flat_map candidates (Str.split Str.COMMA tags_text).

(** The body of the cleaning loop: [Some] is an [append]. *)
Definition clean (tag : str) : option str :=
  let tag := Str.strip tag in
  if 2 <=? length tag then
    let tag := Str.strip_chars PUNCT tag in
    if 2 <=? length tag then Some tag else None
  else None.

Definition tags (tags_text : str) : list str :=
  omap clean (raw_tags tags_text).

(** Everything [generate_tags] does with the text of a response. *)
Definition parse (content : str) : list str :=
  let tags_text := Str.strip content in
  let final_tags := take 5 (tags tags_text) in
  final_tags.

End Parser.


(** ** JSON values, files and the completion service *)

(** What [json.load] returns. Null, booleans and numbers are kept as the
    text they were written with; [fields] are the items of a [dict] in
    insertion order. *)
Inductive json : Type :=
| JStr (s : str)
| JAtom (text : str)
| JArr (items : list json)
| JObj (fields : list (str * json)).

(** The exception classes [generate_tags] has handlers for. Every class is a
    subclass of [Exception]; [OtherError] is any class the first three
    handlers do not name. *)
Inductive exn : Type :=
| APIError
| RateLimitError
| AuthenticationError
| OtherError.

Inductive outcome (A : Type) : Type :=
| Ok (a : A)
| Raise (e : exn).
Arguments Ok {A} a.
Arguments Raise {A} e.

(** The part of the world the processor only reads. [service sent msg] is
    [response.choices[0].message.content] for the article text [msg] when
    the texts [sent] went out before it (the service need not answer the
    same text twice alike), or the exception raised while obtaining it. *)
Record Env : Type := {
  service : list str → str → outcome str;
  read_text : str → option str;
  load_json : str → option json;
  render : json → str
}.

(** ** The processor object and the three documents *)

Record TagProcessor : Type := {
  tag_pool : gset str;
  tag_counter : list (str * Z);
  processed_files : gset str;
  processed_articles : gset str
}.

Record StatsDoc : Type := {
  total_tags : nat;
  total_occurrences : Z;
  tag_counts : list (str * Z);
  top_tags : list (str * Z)
}.

Record ProgressDoc : Type := {
  doc_processed_files : list str;
  doc_processed_articles : list str
}.

(** [main] fixes [output_file] to [tags.json]; the three slots are that
    file and its siblings [tags_stats.json] and [tags_progress.json]. [None]
    is a file that does not exist. The [last_update] time stamp of the
    progress document is not kept. *)
Record Disk : Type := {
  tags_json : option (list str);
  stats_json : option StatsDoc;
  progress_json : option ProgressDoc
}.

Record World : Type := {
  self : TagProcessor;
  disk : Disk;
  requests : list str
}.

Definition set_self (f : TagProcessor → TagProcessor) (w : World) : World :=
  {| self := f (self w); disk := disk w; requests := requests w |}.

Definition set_disk (f : Disk → Disk) (w : World) : World :=
  {| self := self w; disk := f (disk w); requests := requests w |}.

(** [TagProcessor.__init__] *)
Definition init : TagProcessor :=
  {| tag_pool := ∅; tag_counter := []; processed_files := ∅;
     processed_articles := ∅ |}.

Definition empty_disk : Disk :=
  {| tags_json := None; stats_json := None; progress_json := None |}.

(** ** A reader, state and exception monad for the methods *)

Definition M (A : Type) : Type := Env → World → outcome A * World.

Definition ret {A} (a : A) : M A := λ _ w, (Ok a, w).

Definition bind {A B} (m : M A) (k : A → M B) : M B :=
  λ env w,
    match m env w with
    | (Ok a, w') => k a env w'
    | (Raise e, w') => (Raise e, w')
    end.

Definition raise {A} (e : exn) : M A := λ _ w, (Raise e, w).

(** [try: m  except <class>: h] with one handler per class. *)
Definition try_except {A} (m : M A) (h : exn → M A) : M A :=
  λ env w,
    match m env w with
    | (Ok a, w') => (Ok a, w')
    | (Raise e, w') => h e env w'
    end.

Definition ask : M Env := λ env w, (Ok env, w).
Definition get : M World := λ _ w, (Ok w, w).
Definition modify (f : World → World) : M unit := λ _ w, (Ok tt, f w).

Notation "x <- m ;; k" := (bind m (λ x, k))
  (at level 100, m at next level, right associativity).
Notation "m ;;; k" := (bind m (λ _, k))
  (at level 100, right associativity).

(** ** Paths *)

Module Path.

Definition SLASH : char := 47%N.
Definition DOT : char := 46%N.

(** [os.path.basename]: what follows the last [/]. *)
Definition basename (file_path : str) : str :=
  List.last (Str.split SLASH file_path) [].

(** [Path(p).suffix]: from the last dot of the final component, empty when
    there is none, when it is the first character of the name, or when the
    name ends with it. *)
Definition suffix (file_path : str) : str :=
  let name := basename file_path in
  match rev (Str.split DOT name) with
  | ext :: stem :: before =>
      match ext, stem, before with
      | [], _, _ => []
      | _, [], [] => []
      | _, _, _ => DOT :: ext
      end
  | _ => []
  end.

(** [Path(file_path).suffix.lower() == '.json'] *)
Definition is_json (file_path : str) : bool :=
  Str.eqb (map Str.ascii_lower (suffix file_path)) (u".json").

End Path.

(** ** Content Extractor ([read_article], [read_json_articles]) *)

Record article : Type := {
  index : nat;
  content : str;
  metadata : list (str * json)
}.

Module Extract.

Fixpoint lookup (field : str) (d : list (str * json)) : option json :=
  match d with
  | [] => None
  | (k, v) :: d' => if Str.eqb k field then Some v else lookup field d'
  end.

(** [str(v)] *)
Definition py_str (env : Env) (v : json) : str :=
  match v with
  | JStr s => s
  | _ => render env v
  end.

(** The [for field in [...]: ... break / else] loop of lines 69-75 and
    110-116. *)
Definition FALLBACK : list str :=
  [u"content"; u"text"; u"body"; u"description"].

Fixpoint first_field (env : Env) (names : list str) (d : list (str * json))
  : option str :=
  match names with
  | [] => None
  | field :: names' =>
      match lookup field d with
      | Some v => Some (Str.strip (py_str env v))
      | None => first_field env names' d
      end
  end.

(** [content_field and content_field in d]: [None] and the empty string are
    both false. *)
Definition resolve (env : Env) (content_field : option str)
    (d : list (str * json)) : option str :=
  match content_field with
  | Some ((_ :: _) as field) =>
      match lookup field d with
      | Some v => Some (Str.strip (py_str env v))
      | None => first_field env FALLBACK d
      end
  | _ => first_field env FALLBACK d
  end.

(** [{k: v for k, v in item.items() if k != content_field}] *)
Definition metadata_of (content_field : option str) (d : list (str * json))
  : list (str * json) :=
  filter (λ kv, Some (fst kv) ≠ content_field) d.

(** The loop over [enumerate(data)] of [read_json_articles]. *)
Fixpoint articles_from (env : Env) (content_field : option str) (i : nat)
    (data : list json) : list article :=
  match data with
  | [] => []
  | item :: data' =>
      match item with
      | JObj d =>
          match resolve env content_field d with
          | Some ((_ :: _) as content) =>
              [{| index := i; content := content;
                  metadata := metadata_of content_field d |}]
          | _ => []
          end
      | _ => []
      end ++ articles_from env content_field (S i) data'
  end.

Definition read_json_articles (env : Env) (file_path : str)
    (content_field : option str) : list article :=
  match load_json env file_path with
  | Some (JArr data) => articles_from env content_field 0 data
  | Some _ => []
  | None => []
  end.

Definition read_article (env : Env) (file_path : str)
    (content_field : option str) : str :=
  if Path.is_json file_path then
    match load_json env file_path with
    | Some (JObj data) =>
        match resolve env content_field data with
        | Some content => content
        | None => []
        end
    | Some _ => []
    | None => []
    end
  else
    match read_text env file_path with
    | Some text => Str.strip text
    | None => []
    end.

End Extract.

(** ** Aggregation Store: the tag pool and the [Counter] *)

Module Store.

(** [counter[tag] = counter.get(tag, 0) + 1]: a known key is updated in
    place, a new key goes to the end. *)
Fixpoint incr (tag : str) (counter : list (str * Z)) : list (str * Z) :=
  match counter with
  | [] => [(tag, 1%Z)]
  | (k, n) :: counter' =>
      if Str.eqb k tag then (k, (n + 1)%Z) :: counter'
      else (k, n) :: incr tag counter'
  end.

(** [Counter.update(tags)] *)
Definition update (tags : list str) (counter : list (str * Z))
  : list (str * Z) :=
  fold_left (λ c tag, incr tag c) tags counter.

(** [counter[tag]], 0 for a missing key. *)
Fixpoint count (tag : str) (counter : list (str * Z)) : Z :=
  match counter with
  | [] => 0%Z
  | (k, n) :: counter' => if Str.eqb k tag then n else count tag counter'
  end.

(** [sum(counter.values())] *)
Definition total (counter : list (str * Z)) : Z :=
  fold_right (λ kv acc, (snd kv + acc)%Z) 0%Z counter.

(** A stable insertion sort: [x] stood before every element of [l] and goes
    after exactly those [y] for which [ahead y x] holds. *)
Fixpoint insert_sorted {A} (ahead : A → A → bool) (x : A) (l : list A)
  : list A :=
  match l with
  | [] => [x]
  | y :: l' => if ahead y x then y :: insert_sorted ahead x l' else x :: l
  end.

Definition sort_by {A} (ahead : A → A → bool) (l : list A) : list A :=
  fold_right (insert_sorted ahead) [] l.

(** [sorted(list(pool))] *)
Definition sorted (pool : gset str) : list str :=
  sort_by (λ y x, negb (Str.leb x y)) (elements pool).

(** [counter.most_common()]: descending count, ties in insertion order. *)
Definition most_common (counter : list (str * Z)) : list (str * Z) :=
  sort_by (λ y x, (snd x <? snd y)%Z) counter.

(** The block under [tag_lock] up to the log lines:
    [tag_pool.update(tags); tag_counter.update(tags)]. *)
Definition merge (tags : list str) (p : TagProcessor) : TagProcessor :=
  {| tag_pool := tag_pool p ∪ list_to_set tags;
     tag_counter := update tags (tag_counter p);
     processed_files := processed_files p;
     processed_articles := processed_articles p |}.

(** [added_tags = new_size - old_size] *)
Definition added_tags (tags : list str) (p : TagProcessor) : nat :=
  size (tag_pool (merge tags p)) - size (tag_pool p).

End Store.

(** ** Persistence Layer *)

Module Persist.

Definition stats_data (p : TagProcessor) : StatsDoc :=
  {| total_tags := size (tag_pool p);
     total_occurrences := Store.total (tag_counter p);
     tag_counts := Store.most_common (tag_counter p);
     top_tags := take 10 (Store.most_common (tag_counter p)) |}.

Definition progress_data (p : TagProcessor) : ProgressDoc :=
  {| doc_processed_files := elements (processed_files p);
     doc_processed_articles := elements (processed_articles p) |}.

(** [save_tags] and [save_tags_incremental] write the same two documents. *)
Definition save_tags (w : World) : World :=
  set_disk (λ d, {| tags_json := Some (Store.sorted (tag_pool (self w)));
                    stats_json := Some (stats_data (self w));
                    progress_json := progress_json d |}) w.

Definition save_tags_incremental (w : World) : World := save_tags w.

Definition save_state (w : World) : World :=
  set_disk (λ d, {| tags_json := tags_json d;
                    stats_json := stats_json d;
                    progress_json := Some (progress_data (self w)) |}) w.

(** [load_state]: each document seeds its own part when it exists. *)
Definition load_pool (d : Disk) (p : TagProcessor) : TagProcessor :=
  match tags_json d with
  | Some tag_list =>
      {| tag_pool := list_to_set tag_list;
         tag_counter := tag_counter p;
         processed_files := processed_files p;
         processed_articles := processed_articles p |}
  | None => p
  end.

Definition load_counter (d : Disk) (p : TagProcessor) : TagProcessor :=
  match stats_json d with
  | Some stats =>
      {| tag_pool := tag_pool p;
         tag_counter := tag_counts stats;
         processed_files := processed_files p;
         processed_articles := processed_articles p |}
  | None => p
  end.

Definition load_progress (d : Disk) (p : TagProcessor) : TagProcessor :=
  match progress_json d with
  | Some progress =>
      {| tag_pool := tag_pool p;
         tag_counter := tag_counter p;
         processed_files := list_to_set (doc_processed_files progress);
         processed_articles := list_to_set (doc_processed_articles progress) |}
  | None => p
  end.

Definition load_state (w : World) : World :=
  set_self (λ p, load_progress (disk w) (load_counter (disk w)
                   (load_pool (disk w) p))) w.

End Persist.

(** ** Tag Generator ([generate_tags]) *)

(** [content[:3000]] goes out as the user turn; the request is recorded. *)
Definition create_completion (content : str) : M str :=
  λ env w,
    let text := take 3000 content in
    (service env (requests w) text,
     {| self := self w; disk := disk w; requests := requests w ++ [text] |}).

Definition generate_tags (content : str) : M (list str) :=
  match content with
  | [] => ret []
  | _ :: _ =>
      try_except
        (response <- create_completion content ;;
         ret (Parser.parse response))
        (λ e, match e with
              | APIError => ret []
              | RateLimitError => ret []
              | AuthenticationError => ret []
              | OtherError => ret []
              end)
  end.

(** ** Orchestrator: one unit, one file, one run *)

Inductive reason : Type :=
| already_processed
| empty_content
| no_tags_generated
| no_valid_articles
| exception (e : exn).

Inductive status : Type := success | failed | skipped.

Inductive article_result : Type :=
| ArticleSkipped (article_id : str) (why : reason)
| ArticleFailed (article_id : str) (why : reason)
| ArticleSuccess (article_id : str) (tags : list str) (content_length : nat)
    (metadata : list (str * json)).

Inductive file_result : Type :=
| FileSkipped (file : str) (why : reason)
| FileFailed (file : str) (why : reason)
| FileArticles (file : str)
    (articles_processed articles_success articles_failed articles_skipped : nat)
    (results : list article_result)
| FileSuccess (file : str) (tags : list str) (content_length : nat).

Definition article_status (r : article_result) : status :=
  match r with
  | ArticleSkipped _ _ => skipped
  | ArticleFailed _ _ => failed
  | ArticleSuccess _ _ _ _ => success
  end.

Definition file_status (r : file_result) : status :=
  match r with
  | FileSkipped _ _ => skipped
  | FileFailed _ _ => failed
  | FileArticles _ _ _ _ _ _ => success
  | FileSuccess _ _ _ => success
  end.

Definition status_eqb (a b : status) : bool :=
  match a, b with
  | success, success | failed, failed | skipped, skipped => true
  | _, _ => false
  end.

(** [sum(1 for r in results if r["status"] == s)] *)
Definition count_status (s : status) (results : list article_result) : nat :=
  length (List.filter (λ r, status_eqb (article_status r) s) results).

(** A Python truth test on an optional string argument. *)
Definition truthy (s : option str) : bool :=
  match s with
  | Some (_ :: _) => true
  | _ => false
  end.

(** [f"{file_name}#{article['index']}"] *)
Definition article_id (file_name : str) (a : article) : str :=
  file_name ++ Str.HASH :: Str.of_nat (index a).

(** Lines 282-294, the block under [tag_lock]: merge, then the incremental
    save of all three documents. *)
Definition merge_block (tags : list str) (output_file : option str)
    (incremental_save : bool) (w : World) : World :=
  let w := set_self (Store.merge tags) w in
  if truthy output_file && incremental_save then
    Persist.save_state (Persist.save_tags_incremental w)
  else w.

(** Line 297: [self.processed_articles.add(article_id)] *)
Definition mark_article (id : str) (w : World) : World :=
  set_self (λ p, {| tag_pool := tag_pool p;
                    tag_counter := tag_counter p;
                    processed_files := processed_files p;
                    processed_articles := processed_articles p ∪ {[id]} |}) w.

(** Line 342: [self.processed_files.add(file_path)] *)
Definition mark_file (file_path : str) (w : World) : World :=
  set_self (λ p, {| tag_pool := tag_pool p;
                    tag_counter := tag_counter p;
                    processed_files := processed_files p ∪ {[file_path]};
                    processed_articles := processed_articles p |}) w.

Definition process_single_article (a : article) (file_name : str)
    (output_file : option str) (incremental_save : bool) : M article_result :=
  let id := article_id file_name a in
  w <- get ;;
  if decide (id ∈ processed_articles (self w)) then
    ret (ArticleSkipped id already_processed)
  else
    match content a with
    | [] => ret (ArticleFailed id empty_content)
    | _ :: _ =>
        tags <- generate_tags (content a) ;;
        match tags with
        | [] => ret (ArticleFailed id no_tags_generated)
        | _ :: _ =>
            modify (merge_block tags output_file incremental_save) ;;;
            modify (mark_article id) ;;;
            ret (ArticleSuccess id tags (length (content a)) (metadata a))
        end
    end.

(** [for x in xs: results.append(f(x))] *)
Fixpoint for_each {A B} (f : A → M B) (xs : list A) : M (list B) :=
  match xs with
  | [] => ret []
  | x :: xs' =>
      r <- f x ;;
      rs <- for_each f xs' ;;
      ret (r :: rs)
  end.

Definition process_single_file (file_path : str) (content_field : option str)
    (output_file : option str) (incremental_save : bool) : M file_result :=
  let file_name := Path.basename file_path in
  w <- get ;;
  if decide (file_path ∈ processed_files (self w)) then
    ret (FileSkipped file_name already_processed)
  else
    env <- ask ;;
    if Path.is_json file_path then
      let articles := Extract.read_json_articles env file_path content_field in
      match articles with
      | [] => ret (FileFailed file_name no_valid_articles)
      | _ :: _ =>
          results <- for_each
            (λ a, process_single_article a file_name output_file
                    incremental_save) articles ;;
          modify (mark_file file_path) ;;;
          ret (FileArticles file_name (length articles)
                 (count_status success results)
                 (count_status failed results)
                 (count_status skipped results) results)
      end
    else
      let content := Extract.read_article env file_path content_field in
      match content with
      | [] => ret (FileFailed file_name empty_content)
      | _ :: _ =>
          tags <- generate_tags content ;;
          match tags with
          | [] => ret (FileFailed file_name no_tags_generated)
          | _ :: _ =>
              modify (set_self (Store.merge tags)) ;;;
              ret (FileSuccess file_name tags (length content))
          end
      end.

(** [process_files] with the pool taking the tasks one at a time, in the
    order they were submitted; an exception leaving a task is turned into a
    failed result for the file [unknown]. *)
Definition process_files (file_paths : list str) (content_field : option str)
    (output_file : option str) (incremental_save : bool)
  : M (list file_result) :=
  for_each
    (λ file_path,
       try_except
         (process_single_file file_path content_field output_file
            incremental_save)
         (λ e, ret (FileFailed (u"unknown") (exception e))))
    file_paths.

Definition OUTPUT_FILE : str := u"tags.json".

(** The processing part of [main]: a new processor, [load_state], the
    files, then [save_tags] and [save_state]. [article_files] is the sorted
    result of [find_article_files]; an empty one ends the run before a
    processor exists. *)
Definition main (article_files : list str) (content_field : option str)
    (incremental_save : bool) : M (list file_result) :=
  match article_files with
  | [] => ret []
  | _ :: _ =>
      modify (set_self (λ _, init)) ;;;
      modify Persist.load_state ;;;
      results <- process_files article_files content_field
                   (Some OUTPUT_FILE) incremental_save ;;
      modify Persist.save_tags ;;;
      modify Persist.save_state ;;;
      ret results
  end.

(** The world before the first run: nothing on disk, nothing sent. *)
Definition fresh : World :=
  {| self := init; disk := empty_disk; requests := [] |}.

(** ** Worker threads: [process_single_file] as a sequence of atomic steps *)

(** [process_files] submits one task per file to a thread pool. A task is
    cut here at every point where it touches the shared processor: the two
    sections under [file_lock], the section under [tag_lock], and the two
    accesses to [processed_articles], which take no lock. Between two steps
    of one task any other task may move. Treating a locked section as one
    step gives fewer interleavings than the threads really have, so every
    schedule of this model is a schedule of the program. *)

Module Worker.

Record task : Type := {
  file_path : str;
  content_field : option str;
  output_file : option str;
  incremental_save : bool
}.

Inductive lock : Type := tag_lock | file_lock.

(** Where a task stands. [todo] are the articles the loop of lines 331-333
    has not reached, [done] the results appended so far. *)
Inductive pc : Type :=
| FileCheck
| ReadFile
| ArticleCheck (todo : list article) (done : list article_result)
| Generate (a : article) (todo : list article) (done : list article_result)
| Merge (a : article) (tags : list str) (todo : list article)
    (done : list article_result)
| Mark (a : article) (tags : list str) (todo : list article)
    (done : list article_result)
| FileMark (results : list article_result)
| TextGenerate (content : str)
| TextMerge (content : str) (tags : list str)
| Finished (r : file_result)
| Crashed (e : exn).

(** The lock the source holds during a step. *)
Definition holds (p : pc) : option lock :=
  match p with
  | FileCheck => Some file_lock
  | FileMark _ => Some file_lock
  | Merge _ _ _ _ => Some tag_lock
  | TextMerge _ _ => Some tag_lock
  | _ => None
  end.

Definition step (env : Env) (t : task) (p : pc) (w : World) : pc * World :=
  let file_name := Path.basename (file_path t) in
  match p with
  | FileCheck =>
      if decide (file_path t ∈ processed_files (self w)) then
        (Finished (FileSkipped file_name already_processed), w)
      else (ReadFile, w)
  | ReadFile =>
      if Path.is_json (file_path t) then
        match Extract.read_json_articles env (file_path t) (content_field t) with
        | [] => (Finished (FileFailed file_name no_valid_articles), w)
        | (_ :: _) as articles => (ArticleCheck articles [], w)
        end
      else
        match Extract.read_article env (file_path t) (content_field t) with
        | [] => (Finished (FileFailed file_name empty_content), w)
        | (_ :: _) as content => (TextGenerate content, w)
        end
  | ArticleCheck [] done => (FileMark done, w)
  | ArticleCheck (a :: todo) done =>
      let id := article_id file_name a in
      if decide (id ∈ processed_articles (self w)) then
        (ArticleCheck todo (done ++ [ArticleSkipped id already_processed]), w)
      else
        match content a with
        | [] => (ArticleCheck todo (done ++ [ArticleFailed id empty_content]), w)
        | _ :: _ => (Generate a todo done, w)
        end
  | Generate a todo done =>
      let id := article_id file_name a in
      match generate_tags (content a) env w with
      | (Ok [], w') =>
          (ArticleCheck todo (done ++ [ArticleFailed id no_tags_generated]), w')
      | (Ok ((_ :: _) as tags), w') => (Merge a tags todo done, w')
      | (Raise e, w') => (Crashed e, w')
      end
  | Merge a tags todo done =>
      (Mark a tags todo done,
       merge_block tags (output_file t) (incremental_save t) w)
  | Mark a tags todo done =>
      let id := article_id file_name a in
      (ArticleCheck todo
         (done ++ [ArticleSuccess id tags (length (content a)) (metadata a)]),
       mark_article id w)
  | FileMark results =>
      (Finished (FileArticles file_name (length results)
                   (count_status success results)
                   (count_status failed results)
                   (count_status skipped results) results),
       mark_file (file_path t) w)
  | TextGenerate content =>
      match generate_tags content env w with
      | (Ok [], w') => (Finished (FileFailed file_name no_tags_generated), w')
      | (Ok ((_ :: _) as tags), w') => (TextMerge content tags, w')
      | (Raise e, w') => (Crashed e, w')
      end
  | TextMerge content tags =>
      (Finished (FileSuccess file_name tags (length content)),
       set_self (Store.merge tags) w)
  | Finished r => (Finished r, w)
  | Crashed e => (Crashed e, w)
  end.

(** One task running with nobody else moving. *)
Fixpoint run_alone (fuel : nat) (env : Env) (t : task) (p : pc) (w : World)
  : pc * World :=
  match fuel with
  | O => (p, w)
  | S fuel' => let '(p', w') := step env t p w in run_alone fuel' env t p' w'
  end.

(** The pool: every task with its position, and the world they share. *)
Record pool : Type := {
  threads : list (task * pc);
  world : World
}.

Definition start (tasks : list task) (w : World) : pool :=
  {| threads := map (λ t, (t, FileCheck)) tasks; world := w |}.

(** Thread [i] takes its next step. *)
Definition move (env : Env) (i : nat) (s : pool) : pool :=
  match threads s !! i with
  | Some (t, p) =>
      let '(p', w') := step env t p (world s) in
      {| threads := <[i := (t, p')]> (threads s); world := w' |}
  | None => s
  end.

Definition run (env : Env) (schedule : list nat) (s : pool) : pool :=
  fold_left (λ s i, move env i s) schedule s.

(** The positions thread [i] passes through under a schedule, oldest
    first. *)
Fixpoint trace (env : Env) (i : nat) (schedule : list nat) (s : pool)
  : list pc :=
  match schedule with
  | [] => []
  | j :: schedule' =>
      (if decide (i = j) then
         match threads s !! i with Some (_, p) => [p] | None => [] end
       else []) ++ trace env i schedule' (move env j s)
  end.

Definition results (s : pool) : list (option file_result) :=
  map (λ tp, match snd tp with Finished r => Some r | _ => None end)
      (threads s).


Definition names (s : pool) : list str :=
  map (λ tp, Path.basename (file_path (fst tp))) (threads s).


End Worker.

(** ** Statistics, file discovery, settings and the command line *)

(** The dictionary [get_statistics] returns, key by key. *)
Record Statistics : Type := {
  stat_total_tags : nat;
  stat_total_occurrences : Z;
  stat_processed_files : nat;
  stat_tag_list : list str;
  stat_top_tags : list (str * Z);
  stat_tag_counts : list (str * Z)
}.

Definition get_statistics (p : TagProcessor) : Statistics :=
  {| stat_total_tags := size (tag_pool p);
     stat_total_occurrences := Store.total (tag_counter p);
     stat_processed_files := size (processed_files p);
     stat_tag_list := Store.sorted (tag_pool p);
     stat_top_tags := take 10 (Store.most_common (tag_counter p));
     stat_tag_counts := Store.most_common (tag_counter p) |}.

Module Discover.

Definition SUPPORTED : list str := [u".txt"; u".md"; u".json"].

(** [file_path.suffix.lower() in supported_extensions] *)
Definition supported (file_path : str) : bool :=
  existsb (Str.eqb (map Str.ascii_lower (Path.suffix file_path))) SUPPORTED.

(** [sorted] on a list of strings. *)
Definition sorted_paths (paths : list str) : list str :=
  Store.sort_by (λ y x, negb (Str.leb x y)) paths.

(** [find_article_files]. [tree] is what [data_path.rglob] lists, every
    entry with the answer of [is_file]; [None] is a data directory that
    does not exist. *)
Definition find_article_files (tree : option (list (str * bool)))
  : list str :=
  match tree with
  | None => []
  | Some entries =>
      sorted_paths
        (map fst (List.filter (λ e, snd e && supported (fst e)) entries))
  end.

End Discover.

(** The counts [main] prints after the run (lines 626-646). *)
Record Summary : Type := {
  success_count : nat;
  failed_count : nat;
  skipped_count : nat;
  total_articles : nat;
  successful_articles : nat;
  failed_articles : nat;
  skipped_articles : nat
}.

Definition count_files (s : status) (results : list file_result) : nat :=
  length (List.filter (λ r, status_eqb (file_status r) s) results).

(** One turn of the loop of lines 637-646 on the four article counters. *)
Definition add_articles (r : file_result) (acc : nat * nat * nat * nat)
  : nat * nat * nat * nat :=
  let '(total, ok, bad, skip) := acc in
  match r with
  | FileArticles _ processed succeeded failed_ skipped_ _ =>
      (total + processed, ok + succeeded, bad + failed_, skip + skipped_)
  | FileSuccess _ _ _ => (total + 1, ok + 1, bad, skip)
  | _ => acc
  end.

Definition summarize (results : list file_result) : Summary :=
  let '(total, ok, bad, skip) :=
    fold_left (λ acc r, add_articles r acc) results (0, 0, 0, 0) in
  {| success_count := count_files success results;
     failed_count := count_files failed results;
     skipped_count := count_files skipped results;
     total_articles := total;
     successful_articles := ok;
     failed_articles := bad;
     skipped_articles := skip |}.

(** [settings.py] *)
Module Settings.

Record t : Type := {
  openai_api_key : str;
  openai_base_url : str;
  openai_model : str;
  max_workers : Z;
  output_file : str;
  data_dir : str
}.

(** What the module reads: the environment after [load_dotenv], the
    built-in [int] on strings ([None] when it raises [ValueError]) and the
    two tests of [os.path]. *)
Record Os : Type := {
  environ : str → option str;
  int_of_str : str → option Z;
  path_exists : str → bool;
  path_isdir : str → bool
}.

(** [os.getenv(name, default)] *)
Definition getenv (os : Os) (name default : str) : str :=
  match environ os name with
  | Some value => value
  | None => default
  end.

(** [Settings.__init__]: [None] is the [ValueError] raised by [int] or by
    the check of the key, whichever comes first. *)
Definition init (os : Os) : option t :=
  let key := getenv os (u"OPENAI_API_KEY") [] in
  let base := getenv os (u"OPENAI_BASE_URL") (u"https://api.openai.com/v1") in
  let model := getenv os (u"OPENAI_MODEL") (u"gpt-3.5-turbo") in
  match int_of_str os (getenv os (u"MAX_WORKERS") (u"4")) with
  | None => None
  | Some workers =>
      let out := getenv os (u"OUTPUT_FILE") (u"tags.json") in
      let dir := getenv os (u"DATA_DIR") (u"post-tags/data") in
      match key with
      | [] => None
      | _ :: _ =>
          Some {| openai_api_key := key; openai_base_url := base;
                  openai_model := model; max_workers := workers;
                  output_file := out; data_dir := dir |}
      end
  end.

Definition validate (os : Os) (s : t) : bool :=
  match openai_api_key s with
  | [] => false
  | _ :: _ =>
      if negb (path_exists os (data_dir s)) then false
      else if negb (path_isdir os (data_dir s)) then false
      else true
  end.

End Settings.



(** ** The properties checked, as definitions *)

(** The Aggregation Store invariant: the pool is the key set of the counter
    and every count is at least 1. *)
Definition store_invariant (p : TagProcessor) : Prop :=
  (∀ tag, tag ∈ tag_pool p ↔ tag ∈ (tag_counter p).*1) ∧
  Forall (λ kv, (1 ≤ kv.2)%Z) (tag_counter p).

(** A new process on the disk an earlier one left behind. *)
Definition restart (w : World) : World :=
  {| self := init; disk := disk w; requests := [] |}.

(** The documents the idempotent-resume property compares. *)
Definition documents (w : World) : option (list str) * option StatsDoc :=
  (tags_json (disk w), stats_json (disk w)).

(** Merging the tag lists of several units, one after the other. *)
Definition merge_all (tag_lists : list (list str)) (p : TagProcessor)
  : TagProcessor :=
  fold_left (λ p tags, Store.merge tags p) tag_lists p.

(** Two stores with the same distinct tags and the same count for every
    tag; the order in which the counter lists its keys may differ. *)
Definition same_store (p q : TagProcessor) : Prop :=
  tag_pool p = tag_pool q ∧
  ∀ tag, Store.count tag (tag_counter p) = Store.count tag (tag_counter q).

(** [tags.count(tag)] *)
Definition occurrences (tag : str) (tags : list str) : Z :=
  Z.of_nat (length (List.filter (λ x, Str.eqb x tag) tags)).

(** The field names tried for the text of an object, in the order they are
    tried. *)
Definition field_order (content_field : option str) : list str :=
  match content_field with
  | Some ((_ :: _) as field) => field :: Extract.FALLBACK
  | _ => Extract.FALLBACK
  end.

(** The tags a result reports as merged into the store. *)
Definition article_tags (r : article_result) : list str :=
  match r with
  | ArticleSuccess _ tags _ _ => tags
  | _ => []
  end.

Definition reported_tags (r : file_result) : list str :=
  match r with
  | FileSuccess _ tags _ => tags
  | FileArticles _ _ _ _ _ results => concat (map article_tags results)
  | _ => []
  end.

(** [w'] is [w] after the tags [tags] were merged, in that order, and
    nothing else was taken from the processor. *)
Definition grows_by (tags : list str) (w w' : World) : Prop :=
  tag_counter (self w') = Store.update tags (tag_counter (self w)) ∧
  tag_pool (self w') = tag_pool (self w) ∪ list_to_set tags ∧
  processed_files (self w) ⊆ processed_files (self w') ∧
  processed_articles (self w) ⊆ processed_articles (self w') ∧
  ∃ sent, requests w' = requests w ++ sent.

(** The counts of a file result add up to its list of unit results. *)
Definition counts_add_up (r : file_result) : Prop :=
  match r with
  | FileArticles _ processed succeeded failed_ skipped_ results =>
      processed = length results ∧
      succeeded = count_status success results ∧
      failed_ = count_status failed results ∧
      skipped_ = count_status skipped results ∧
      processed = succeeded + failed_ + skipped_
  | _ => True
  end.

(** The requests a result stands for: one for every unit that got as far
    as the service. *)
Definition article_requests (r : article_result) : nat :=
  match r with
  | ArticleSuccess _ _ _ _ => 1
  | ArticleFailed _ no_tags_generated => 1
  | _ => 0
  end.

Definition file_requests (r : file_result) : nat :=
  match r with
  | FileSuccess _ _ _ => 1
  | FileFailed _ no_tags_generated => 1
  | FileArticles _ _ _ _ _ results => sum_list (map article_requests results)
  | _ => 0
  end.

(** Between [w] and [w'] exactly [n] requests went out, none of them empty
    and none longer than 3000 characters. *)
Definition sends (n : nat) (w w' : World) : Prop :=
  ∃ sent : list str,
    requests w' = requests w ++ sent ∧
    length sent = n ∧
    Forall (λ q, 0 < length q ≤ 3000) sent.

(** ** Inputs used to evaluate the program *)

Module Sample.

Definition WEATHER : str := u"今天天气很好，适合出去运动。".

(** A service that answers every request with the same text. *)
Definition answering (reply : str) : list str → str → outcome str :=
  λ _ _, Ok reply.

(** A service on which every request fails with [e]. *)
Definition failing (e : exn) : list str → str → outcome str :=
  λ _ _, Raise e.

Definition no_text : str → option str := λ _, None.
Definition no_json : str → option json := λ _, None.
Definition blank : json → str := λ _, [].

(** One text file, the service answers with two tags. *)
Definition text_corpus : Env :=
  {| service := answering (u"天气, 运动");
     read_text := λ p, if Str.eqb p (u"post-tags/data/a.txt")
                       then Some WEATHER else None;
     load_json := no_json;
     render := blank |}.

Definition text_files : list str := [u"post-tags/data/a.txt"].

(** One JSON file holding an array of two objects. *)
Definition array_corpus : Env :=
  {| service := answering (u"天气, 运动");
     read_text := no_text;
     load_json := λ p, if Str.eqb p (u"post-tags/data/posts.json")
                       then Some (JArr [JObj [(u"content", JStr WEATHER)];
                                        JObj [(u"text", JStr WEATHER)]])
                       else None;
     render := blank |}.

Definition array_files : list str := [u"post-tags/data/posts.json"].

(** One JSON file holding a single object. *)
Definition object_corpus : Env :=
  {| service := answering (u"天气, 运动");
     read_text := no_text;
     load_json := λ p, if Str.eqb p (u"post-tags/data/post.json")
                       then Some (JObj [(u"content", JStr WEATHER)])
                       else None;
     render := blank |}.

Definition object_file : str := u"post-tags/data/post.json".

(** Two JSON files with the same base name in two directories. *)
Definition twin_corpus : Env :=
  {| service := answering (u"天气, 运动");
     read_text := no_text;
     load_json := λ p, if Str.eqb p (u"post-tags/data/a/x.json")
                          || Str.eqb p (u"post-tags/data/b/x.json")
                       then Some (JArr [JObj [(u"content", JStr WEATHER)]])
                       else None;
     render := blank |}.

Definition twin_task (file_path : str) : Worker.task :=
  {| Worker.file_path := file_path;
     Worker.content_field := Some (u"content");
     Worker.output_file := Some OUTPUT_FILE;
     Worker.incremental_save := false |}.

Definition twin_tasks : list Worker.task :=
  [twin_task (u"post-tags/data/a/x.json");
   twin_task (u"post-tags/data/b/x.json")].

(** Thread 0 runs to its end, then thread 1. *)
Definition one_after_the_other : list nat :=
  [0; 0; 0; 0; 0; 0; 0; 0; 1; 1; 1; 1; 1; 1; 1; 1].

(** Thread 1 runs to its end, then thread 0. *)
Definition the_other_way_round : list nat :=
  [1; 1; 1; 1; 1; 1; 1; 1; 0; 0; 0; 0; 0; 0; 0; 0].

(** Both threads pass the membership test of line 263 before either
    reaches line 297. *)
Definition both_check_first : list nat :=
  [0; 0; 0; 1; 1; 1; 0; 0; 0; 1; 1; 1; 0; 0; 1; 1].



(** A service whose answer holds no tag of two characters. *)
Definition mute_corpus : Env :=
  {| service := answering (u"好");
     read_text := no_text;
     load_json := no_json;
     render := blank |}.

Definition unit0 : article :=
  {| index := 0; content := WEATHER; metadata := [] |}.

(** A JSON array of three objects, the second without a content field. *)
Definition gap_corpus : Env :=
  {| service := answering (u"天气, 运动");
     read_text := no_text;
     load_json := λ p, if Str.eqb p (u"post-tags/data/posts.json")
                       then Some (JArr [JObj [(u"content", JStr (u"first"))];
                                        JObj [(u"title", JStr (u"second"))];
                                        JObj [(u"body", JStr (u"third"))]])
                       else None;
     render := blank |}.


End Sample.

(** * Properties *)

(** ** Strings *)

Lemma str_eqb_eq (a b : str) : Str.eqb a b = true ↔ a = b.
Proof.
  revert b. induction a as [|x a IH]; intros [|y b]; simpl; try easy.
  rewrite andb_true_iff, N.eqb_eq, IH. split.
  - intros [-> ->]. reflexivity.
  - intros [= -> ->]. auto.
Qed.

Lemma str_eqb_refl (a : str) : Str.eqb a a = true.
Proof. apply str_eqb_eq. reflexivity. Qed.

Lemma lstrip_by_length p (s : str) : length (Str.lstrip_by p s) ≤ length s.
Proof.
  induction s as [|c s IH]; simpl; [lia|].
  destruct (p c); simpl; lia.
Qed.

Lemma strip_by_length p (s : str) : length (Str.strip_by p s) ≤ length s.
Proof.
  unfold Str.strip_by, Str.rstrip_by.
  rewrite length_rev.
  etransitivity; [apply lstrip_by_length|].
  rewrite length_rev. apply lstrip_by_length.
Qed.

(** What [strip] leaves neither starts nor ends with a removed character. *)
Lemma lstrip_by_head p (s : str) c t :
  Str.lstrip_by p s = c :: t → p c = false.
Proof.
  induction s as [|x s IH]; simpl; [easy|].
  destruct (p x) eqn:E; [exact IH|].
  intros [= -> ->]. exact E.
Qed.

(** ** The regular expressions need no more fuel than the text is long *)

Lemma span_no_hash_length (s : str) :
  length (Re.span_no_hash s).2 ≤ length s.
Proof.
  induction s as [|c s IH]; simpl; [lia|].
  destruct (c =? Str.HASH)%N; simpl; [lia|].
  destruct (Re.span_no_hash s) as [run rest]. simpl in *. lia.
Qed.

Lemma match_plus_length (s : str) group rest :
  Re.match_plus s = Some (group, rest) → length rest < length s.
Proof.
  destruct s as [|c t]; simpl; [easy|].
  destruct (c =? Str.HASH)%N; [|easy].
  pose proof (span_no_hash_length t) as H.
  destruct (Re.span_no_hash t) as [[|g gs] [|h r]]; try easy.
  intros [= <- <-]. simpl in *. lia.
Qed.

Lemma match_star_length (s : str) rest :
  Re.match_star s = Some rest → length rest < length s.
Proof.
  destruct s as [|c t]; simpl; [easy|].
  destruct (c =? Str.HASH)%N; [|easy].
  pose proof (span_no_hash_length t) as H.
  destruct (Re.span_no_hash t) as [g [|h r]]; try easy.
  intros [= <-]. simpl in *. lia.
Qed.

Lemma findall_fuel_stable (fuel fuel' : nat) (s : str) :
  length s ≤ fuel → length s ≤ fuel' →
  Re.findall_fuel fuel s = Re.findall_fuel fuel' s.
Proof.
  revert fuel' s. induction fuel as [|fuel IH]; intros fuel' s Hf Hf'.
  - destruct s; [|simpl in Hf; lia]. destruct fuel'; reflexivity.
  - destruct fuel' as [|fuel'].
    + destruct s; [reflexivity|simpl in Hf'; lia].
    + destruct s as [|c t]; [reflexivity|].
      cbn [Re.findall_fuel].
      destruct (Re.match_plus (c :: t)) as [[group rest]|] eqn:E.
      * apply match_plus_length in E. simpl in *.
        f_equal. apply IH; lia.
      * simpl in *. apply IH; lia.
Qed.

Lemma sub_fuel_stable (fuel fuel' : nat) (s : str) :
  length s ≤ fuel → length s ≤ fuel' →
  Re.sub_fuel fuel s = Re.sub_fuel fuel' s.
Proof.
  revert fuel' s. induction fuel as [|fuel IH]; intros fuel' s Hf Hf'.
  - destruct s; [|simpl in Hf; lia]. destruct fuel'; reflexivity.
  - destruct fuel' as [|fuel'].
    + destruct s; [reflexivity|simpl in Hf'; lia].
    + destruct s as [|c t]; [reflexivity|].
      cbn [Re.sub_fuel].
      destruct (Re.match_star (c :: t)) as [rest|] eqn:E.
      * apply match_star_length in E. simpl in *. apply IH; lia.
      * simpl in *. f_equal. apply IH; lia.
Qed.

(** The scan equations of [findall] and [sub], free of fuel. *)
Lemma findall_scan (c : char) (t : str) :
  Re.findall (c :: t) =
    match Re.match_plus (c :: t) with
    | Some (group, rest) => group :: Re.findall rest
    | None => Re.findall t
    end.
Proof.
  unfold Re.findall. cbn [length Re.findall_fuel].
  destruct (Re.match_plus (c :: t)) as [[group rest]|] eqn:E.
  - apply match_plus_length in E. simpl in E.
    f_equal. apply findall_fuel_stable; lia.
  - reflexivity.
Qed.

Lemma sub_scan (c : char) (t : str) :
  Re.sub (c :: t) =
    match Re.match_star (c :: t) with
    | Some rest => Re.sub rest
    | None => c :: Re.sub t
    end.
Proof.
  unfold Re.sub. cbn [length Re.sub_fuel].
  destruct (Re.match_star (c :: t)) as [rest|] eqn:E.
  - apply match_star_length in E. simpl in E.
    apply sub_fuel_stable; lia.
  - reflexivity.
Qed.

Lemma lstrip_by_snoc p (s : str) c :
  p c = false → Str.lstrip_by p (s ++ [c]) = Str.lstrip_by p s ++ [c].
Proof.
  intros Hc. induction s as [|x s IH]; simpl.
  - rewrite Hc. reflexivity.
  - destruct (p x); [exact IH|reflexivity].
Qed.

Lemma strip_by_head p (s : str) c :
  head (Str.strip_by p s) = Some c → p c = false.
Proof.
  unfold Str.strip_by, Str.rstrip_by.
  destruct (Str.lstrip_by p s) as [|x t] eqn:E; [easy|].
  pose proof (lstrip_by_head _ _ _ _ E) as Hx.
  simpl. rewrite lstrip_by_snoc by exact Hx.
  rewrite rev_app_distr. simpl. congruence.
Qed.

Lemma strip_by_last p (s : str) c :
  List.last (Str.strip_by p s) c = c ∨ p (List.last (Str.strip_by p s) c) = false.
Proof.
  unfold Str.strip_by, Str.rstrip_by.
  destruct (Str.lstrip_by p (rev (Str.lstrip_by p s))) as [|x t] eqn:E.
  - left. reflexivity.
  - right. simpl. rewrite List.last_last.
    exact (lstrip_by_head _ _ _ _ E).
Qed.

(** ** Response parsing *)

(** C4, as the specification states it: the example does not give the
    remainder before the enclosed span. *)
Lemma C4_spec_example_order_refuted :
  Parser.parse (u"生活方式#标签#, AI") ≠ [u"生活方式"; u"标签"; u"AI"].
Proof. vm_compute. discriminate. Qed.

(** C4 (amended): for a comma-separated segment that holds a [#], the
    candidates are the [#]-enclosed spans, in the order they occur, followed
    by the remainder of the segment when it is not empty after trimming; the
    response text "生活方式#标签#, AI" parses to the tags "标签", "生活方式",
    "AI" in that order. *)
Theorem C4_hashtag_spans_then_remainder :
  Parser.parse (u"生活方式#标签#, AI") = [u"标签"; u"生活方式"; u"AI"] ∧
  ∀ tag_part : str,
    Str.mem Str.HASH (Str.strip tag_part) = true →
    Parser.candidates tag_part =
      Re.findall (Str.strip tag_part) ++
      match Str.strip (Re.sub (Str.strip tag_part)) with
      | [] => []
      | (_ :: _) as non_hashtag => [non_hashtag]
      end.
Proof.
  split; [vm_compute; reflexivity|].
  intros tag_part H. unfold Parser.candidates.
  destruct (Str.strip tag_part) as [|c t] eqn:E; [discriminate H|].
  rewrite H. cbv zeta.
  destruct (Str.strip (Re.sub (c :: t))); reflexivity.
Qed.

(** C7, as the specification states it: a half-width period and half-width
    brackets around a candidate are not removed, so "a." is kept with its
    period although one character would remain without it. *)
Lemma C7_half_width_period_kept :
  Parser.clean (u"a.") = Some (u"a.") ∧
  Str.strip_chars (46%N :: Parser.PUNCT) (u"a.") = u"a" ∧
  Parser.parse (u"ab., (cd), [ef]") = [u"ab."; u"(cd)"; u"[ef]"] ∧
  Str.mem 46%N Parser.PUNCT = false.
Proof. vm_compute. auto. Qed.

(** C7 (amended): a candidate is trimmed of white space, then of the
    surrounding characters of the fixed set written in the source (the
    full-width comma, the ideographic full stop, the full-width ! ? ; :,
    the half-width double quote and the brackets （ ） 【 】 《 》; the
    half-width comma, period, parentheses and square brackets are not in
    it), and it is kept exactly when at least 2 characters remain; what is
    kept neither starts nor ends with a character of the set. *)
Theorem C7_clean_strips_then_tests_length (tag : str) :
  Parser.clean tag =
    (let kept := Str.strip_chars Parser.PUNCT (Str.strip tag) in
     if 2 <=? length kept then Some kept else None) ∧
  Forall (λ c, Str.mem c Parser.PUNCT = true)
         (34%N :: u"，。！？；：（）【】《》") ∧
  Forall (λ c, Str.mem c Parser.PUNCT = false) (u".,()[]") ∧
  ∀ kept : str,
    Parser.clean tag = Some kept →
    2 ≤ length kept ∧
    (∀ c, head kept = Some c → Str.mem c Parser.PUNCT = false) ∧
    (∀ c, last kept = Some c → Str.mem c Parser.PUNCT = false).
Proof.
  assert (Hclean : Parser.clean tag =
    (let kept := Str.strip_chars Parser.PUNCT (Str.strip tag) in
     if 2 <=? length kept then Some kept else None)).
  { unfold Parser.clean. cbv zeta.
    destruct (2 <=? length (Str.strip tag)) eqn:E1; [reflexivity|].
    destruct (2 <=? length (Str.strip_chars Parser.PUNCT (Str.strip tag)))
      eqn:E2; [|reflexivity].
    apply Nat.leb_le in E2. apply Nat.leb_gt in E1.
    pose proof (strip_by_length (λ c, Str.mem c Parser.PUNCT) (Str.strip tag)).
    unfold Str.strip_chars in E2. lia. }
  split; [exact Hclean|].
  split; [vm_compute; repeat constructor|].
  split; [vm_compute; repeat constructor|].
  intros kept Hk. rewrite Hclean in Hk. cbv zeta in Hk.
  destruct (2 <=? length (Str.strip_chars Parser.PUNCT (Str.strip tag)))
    eqn:E; [|discriminate].
  injection Hk as <-. apply Nat.leb_le in E.
  split; [exact E|]. split.
  - intros c Hc. unfold Str.strip_chars in Hc.
    exact (strip_by_head _ _ _ Hc).
  - intros c Hc. unfold Str.strip_chars in *.
    rewrite last_Some in Hc. destruct Hc as [l' Hl].
    destruct (strip_by_last (λ c, Str.mem c Parser.PUNCT) (Str.strip tag) c)
      as [H|H]; rewrite Hl, List.last_last in H; [|exact H].
    clear H.
    unfold Str.strip_by, Str.rstrip_by in Hl.
    destruct (Str.lstrip_by (λ c, Str.mem c Parser.PUNCT)
                (rev (Str.lstrip_by (λ c, Str.mem c Parser.PUNCT)
                        (Str.strip tag)))) as [|x t] eqn:E'.
    + destruct l'; discriminate Hl.
    + simpl in Hl. apply app_inj_tail in Hl as [_ ->].
      exact (lstrip_by_head _ _ _ _ E').
Qed.


(** ** Tag Generator *)

(** What [generate_tags] returns and what it leaves behind, handlers
    applied. *)
Lemma generate_tags_eq (content : str) (env : Env) (w : World) :
  generate_tags content env w =
    match content with
    | [] => (Ok [], w)
    | _ :: _ =>
        (Ok match service env (requests w) (take 3000 content) with
            | Ok response => Parser.parse response
            | Raise _ => []
            end,
         {| self := self w; disk := disk w;
            requests := requests w ++ [take 3000 content] |})
    end.
Proof.
  destruct content as [|c content]; [reflexivity|].
  unfold generate_tags, try_except, bind, create_completion, ret.
  destruct (service env (requests w) (take 3000 (c :: content))) as [r|[]];
    reflexivity.
Qed.

Lemma generate_tags_ok (content : str) (env : Env) (w : World) :
  ∃ tags w', generate_tags content env w = (Ok tags, w') ∧
             self w' = self w ∧ disk w' = disk w.
Proof.
  rewrite generate_tags_eq. destruct content; eauto.
Qed.

(** C8: [generate_tags] returns a list for every input and never raises; on
    empty text the list is empty and nothing is sent to the service; when
    the service call raises an authentication, rate-limit, API or any other
    error the list is empty. *)
Theorem C8_generate_tags_never_raises (env : Env) (content : str) (w : World) :
  ∃ (tags : list str) (w' : World),
    generate_tags content env w = (Ok tags, w') ∧
    (content = [] → tags = [] ∧ w' = w) ∧
    (∀ e : exn,
       service env (requests w) (take 3000 content) = Raise e → tags = []) ∧
    (content ≠ [] → requests w' = requests w ++ [take 3000 content]) ∧
    self w' = self w ∧ disk w' = disk w.
Proof.
  rewrite generate_tags_eq. destruct content as [|c content].
  - exists [], w. repeat split; try easy.
  - eexists _, _. split; [reflexivity|].
    repeat split; try easy.
    intros e ->. reflexivity.
Qed.

(** Each class of exception the service may raise ends in the empty list,
    with the request recorded. *)
Example generate_tags_on_raising_service :
  Forall (λ e,
            let env := {| service := Sample.failing e;
                          read_text := Sample.no_text;
                          load_json := Sample.no_json;
                          render := Sample.blank |} in
            (generate_tags Sample.WEATHER env fresh).1 = Ok [] ∧
            requests (generate_tags Sample.WEATHER env fresh).2 =
              [Sample.WEATHER])
         [APIError; RateLimitError; AuthenticationError; OtherError].
Proof. repeat constructor. Qed.

(** ** One unit *)

Lemma process_single_article_eq (a : article) (file_name : str)
    (output_file : option str) (incremental_save : bool) (env : Env)
    (w : World) :
  process_single_article a file_name output_file incremental_save env w =
    let id := article_id file_name a in
    if decide (id ∈ processed_articles (self w)) then
      (Ok (ArticleSkipped id already_processed), w)
    else
      match content a with
      | [] => (Ok (ArticleFailed id empty_content), w)
      | _ :: _ =>
          match generate_tags (content a) env w with
          | (Ok [], w1) => (Ok (ArticleFailed id no_tags_generated), w1)
          | (Ok ((_ :: _) as tags), w1) =>
              (Ok (ArticleSuccess id tags (length (content a)) (metadata a)),
               mark_article id
                 (merge_block tags output_file incremental_save w1))
          | (Raise e, w1) => (Raise e, w1)
          end
      end.
Proof.
  unfold process_single_article, bind, get, ret, modify. cbv zeta.
  destruct (decide (article_id file_name a ∈ processed_articles (self w)));
    [reflexivity|].
  destruct (content a) as [|c s]; [reflexivity|].
  destruct (generate_tags (c :: s) env w) as [[[|t ts]|e] w1]; reflexivity.
Qed.

Lemma merge_block_processed (tags : list str) (output_file : option str)
    (incremental_save : bool) (w : World) :
  processed_articles (self (merge_block tags output_file incremental_save w)) =
    processed_articles (self w) ∧
  processed_files (self (merge_block tags output_file incremental_save w)) =
    processed_files (self w).
Proof.
  unfold merge_block.
  destruct (truthy output_file && incremental_save); split; reflexivity.
Qed.

(** C2, as the specification states it: a unit for which the generator
    produces no tag has completed with a permanent failure, and its
    identifier is not in the processed set afterwards. *)
Lemma C2_failed_unit_not_marked :
  ∃ w' : World,
    process_single_article Sample.unit0 (u"x.json") (Some OUTPUT_FILE) false
      Sample.mute_corpus fresh =
      (Ok (ArticleFailed (u"x.json#0") no_tags_generated), w') ∧
    requests w' = [Sample.WEATHER] ∧
    bool_decide (u"x.json#0" ∈ processed_articles (self w')) = false.
Proof. eexists. vm_compute. auto. Qed.

(** C2 (amended): processing a unit adds its identifier to the
    processed-articles set exactly when the unit reaches [success] (its
    content is not empty and the generator gave at least one tag); a unit
    that fails, on empty content or on zero tags, leaves the set as it was;
    no other identifier enters or leaves the set; and a unit whose
    identifier is in the set at dispatch is skipped with nothing sent to the
    service and nothing changed. *)
Theorem C2_processed_iff_success (env : Env) (a : article) (file_name : str)
    (output_file : option str) (incremental_save : bool) (w : World) :
  let id := article_id file_name a in
  ∃ (res : article_result) (w' : World),
    process_single_article a file_name output_file incremental_save env w =
      (Ok res, w') ∧
    (id ∈ processed_articles (self w) →
       res = ArticleSkipped id already_processed ∧ w' = w) ∧
    (id ∉ processed_articles (self w) →
       article_status res ≠ skipped ∧
       (id ∈ processed_articles (self w') ↔ article_status res = success)) ∧
    (article_status res = failed →
       processed_articles (self w') = processed_articles (self w)) ∧
    (∀ other : str, other ≠ id →
       (other ∈ processed_articles (self w') ↔
        other ∈ processed_articles (self w))).
Proof.
  intros id. rewrite process_single_article_eq. fold id.
  cbv zeta.
  destruct (decide (id ∈ processed_articles (self w))) as [Hin|Hout].
  - eexists _, _. split; [reflexivity|]. repeat split; try easy.
  - destruct (content a) as [|c s] eqn:Hc.
    + eexists _, _. split; [reflexivity|]. simpl. repeat split; try easy.
    + destruct (generate_tags_ok (c :: s) env w) as (tags & w1 & -> & Hs & Hd).
      destruct tags as [|t ts].
      * eexists _, _. split; [reflexivity|]. simpl. rewrite Hs.
        repeat split; try easy.
      * eexists _, _. split; [reflexivity|]. simpl.
        destruct (merge_block_processed (t :: ts) output_file incremental_save
                    w1) as [-> _].
        rewrite Hs. repeat split; try easy; set_solver.
Qed.

(** ** Counter arithmetic *)

Lemma total_incr (tag : str) (counter : list (str * Z)) :
  Store.total (Store.incr tag counter) = (Store.total counter + 1)%Z.
Proof.
  induction counter as [|[k n] counter IH]; simpl; [reflexivity|].
  destruct (Str.eqb k tag); simpl; unfold Store.total in *; simpl; lia.
Qed.

Lemma total_update (tags : list str) (counter : list (str * Z)) :
  Store.total (Store.update tags counter) =
    (Store.total counter + Z.of_nat (length tags))%Z.
Proof.
  unfold Store.update. revert counter.
  induction tags as [|tag tags IH]; intros counter; simpl; [lia|].
  rewrite IH, total_incr. lia.
Qed.

(** ** Incremental save *)



(** ** Single-object JSON files *)

Lemma process_single_file_eq (file_path : str) (content_field : option str)
    (output_file : option str) (incremental_save : bool) (env : Env)
    (w : World) :
  process_single_file file_path content_field output_file incremental_save
      env w =
    let file_name := Path.basename file_path in
    if decide (file_path ∈ processed_files (self w)) then
      (Ok (FileSkipped file_name already_processed), w)
    else if Path.is_json file_path then
      match Extract.read_json_articles env file_path content_field with
      | [] => (Ok (FileFailed file_name no_valid_articles), w)
      | (_ :: _) as articles =>
          match for_each (λ a, process_single_article a file_name output_file
                                 incremental_save) articles env w with
          | (Ok results, w1) =>
              (Ok (FileArticles file_name (length articles)
                     (count_status success results)
                     (count_status failed results)
                     (count_status skipped results) results),
               mark_file file_path w1)
          | (Raise e, w1) => (Raise e, w1)
          end
      end
    else
      match Extract.read_article env file_path content_field with
      | [] => (Ok (FileFailed file_name empty_content), w)
      | (_ :: _) as content =>
          match generate_tags content env w with
          | (Ok [], w1) => (Ok (FileFailed file_name no_tags_generated), w1)
          | (Ok ((_ :: _) as tags), w1) =>
              (Ok (FileSuccess file_name tags (length content)),
               set_self (Store.merge tags) w1)
          | (Raise e, w1) => (Raise e, w1)
          end
      end.
Proof.
  unfold process_single_file, bind, get, ask, ret, modify. cbv zeta.
  destruct (decide (file_path ∈ processed_files (self w))); [reflexivity|].
  destruct (Path.is_json file_path).
  - destruct (Extract.read_json_articles env file_path content_field)
      as [|a l]; [reflexivity|].
    destruct (for_each _ (a :: l) env w) as [[results|e] w1]; reflexivity.
  - destruct (Extract.read_article env file_path content_field) as [|c s];
      [reflexivity|].
    destruct (generate_tags (c :: s) env w) as [[[|t ts]|e] w1]; reflexivity.
Qed.

(** C5, on the code: a [.json] file whose top-level value is an object
    yields no unit. [process_single_file] fails it with [no_valid_articles]
    and sends nothing to the service, whatever fields the object has, while
    [read_article] would resolve its content field. *)
Theorem C5_single_object_json_fails (env : Env) (file_path : str)
    (content_field output_file : option str) (incremental_save : bool)
    (w : World) (d : list (str * json)) :
  Path.is_json file_path = true →
  load_json env file_path = Some (JObj d) →
  file_path ∉ processed_files (self w) →
  process_single_file file_path content_field output_file incremental_save
      env w =
    (Ok (FileFailed (Path.basename file_path) no_valid_articles), w) ∧
  Extract.read_json_articles env file_path content_field = [] ∧
  Extract.read_article env file_path content_field =
    default [] (Extract.resolve env content_field d).
Proof.
  intros Hjson Hload Hnew.
  assert (Hread : Extract.read_json_articles env file_path content_field = []).
  { unfold Extract.read_json_articles. rewrite Hload. reflexivity. }
  split; [|split; [exact Hread|]].
  - rewrite process_single_file_eq. cbv zeta.
    destruct (decide (file_path ∈ processed_files (self w))); [contradiction|].
    rewrite Hjson, Hread. reflexivity.
  - unfold Extract.read_article. rewrite Hjson, Hload.
    destruct (Extract.resolve env content_field d); reflexivity.
Qed.

Lemma C5_single_object_json_witness :
  process_single_file Sample.object_file (Some (u"content"))
      (Some OUTPUT_FILE) false Sample.object_corpus fresh =
    (Ok (FileFailed (u"post.json") no_valid_articles), fresh) ∧
  Extract.read_json_articles Sample.object_corpus Sample.object_file
      (Some (u"content")) = [] ∧
  Extract.read_article Sample.object_corpus Sample.object_file
      (Some (u"content")) = Sample.WEATHER.
Proof.
  apply (C5_single_object_json_fails Sample.object_corpus Sample.object_file
           (Some (u"content")) (Some OUTPUT_FILE) false fresh
           [(u"content", JStr Sample.WEATHER)]).
  - reflexivity.
  - reflexivity.
  - vm_compute. set_solver.
Defined.

(** ** Aggregation Store invariant *)

Lemma incr_keys (tag tag' : str) (counter : list (str * Z)) :
  tag' ∈ (Store.incr tag counter).*1 ↔ tag' = tag ∨ tag' ∈ counter.*1.
Proof.
  induction counter as [|[k n] counter IH]; simpl.
  - rewrite list_elem_of_singleton. set_solver.
  - destruct (Str.eqb k tag) eqn:E; simpl.
    + apply str_eqb_eq in E as ->. set_solver.
    + rewrite !elem_of_cons, IH. tauto.
Qed.

Lemma incr_positive (tag : str) (counter : list (str * Z)) :
  Forall (λ kv, (1 ≤ kv.2)%Z) counter →
  Forall (λ kv, (1 ≤ kv.2)%Z) (Store.incr tag counter).
Proof.
  induction 1 as [|[k n] counter Hn Hrest IH]; simpl.
  - repeat constructor. simpl. lia.
  - destruct (Str.eqb k tag); constructor; simpl in *; auto; lia.
Qed.

Lemma update_keys (tags : list str) (tag' : str) (counter : list (str * Z)) :
  tag' ∈ (Store.update tags counter).*1 ↔ tag' ∈ tags ∨ tag' ∈ counter.*1.
Proof.
  unfold Store.update. revert counter.
  induction tags as [|tag tags IH]; intros counter; simpl.
  - set_solver.
  - rewrite IH, incr_keys, elem_of_cons. tauto.
Qed.

Lemma update_positive (tags : list str) (counter : list (str * Z)) :
  Forall (λ kv, (1 ≤ kv.2)%Z) counter →
  Forall (λ kv, (1 ≤ kv.2)%Z) (Store.update tags counter).
Proof.
  unfold Store.update. revert counter.
  induction tags as [|tag tags IH]; intros counter H; simpl; [exact H|].
  apply IH, incr_positive, H.
Qed.

Lemma merge_invariant (tags : list str) (p : TagProcessor) :
  store_invariant p → store_invariant (Store.merge tags p).
Proof.
  intros [Hkeys Hpos]. split; simpl.
  - intros tag. rewrite elem_of_union, elem_of_list_to_set, update_keys, Hkeys.
    tauto.
  - apply update_positive, Hpos.
Qed.

Lemma insert_sorted_perm {A} (ahead : A → A → bool) (x : A) (l : list A) :
  Store.insert_sorted ahead x l ≡ₚ x :: l.
Proof.
  induction l as [|y l IH]; simpl; [reflexivity|].
  destruct (ahead y x); [|reflexivity].
  rewrite IH. apply Permutation_swap.
Qed.

Lemma sort_by_perm {A} (ahead : A → A → bool) (l : list A) :
  Store.sort_by ahead l ≡ₚ l.
Proof.
  induction l as [|x l IH]; simpl; [reflexivity|].
  rewrite insert_sorted_perm, IH. reflexivity.
Qed.

Lemma sorted_to_set (pool : gset str) :
  list_to_set (Store.sorted pool) = pool.
Proof.
  unfold Store.sorted. apply set_eq. intros tag.
  rewrite elem_of_list_to_set, sort_by_perm. apply elem_of_elements.
Qed.




(** ** Resume *)

(** C1, on the code: a corpus of one text file, run twice with the documents
    of the first run on disk. The text branch of [process_single_file] never
    adds the path to [processed_files], so the progress document of the
    first run lists no file, the second run sends the text to the service
    again, reports [success] and not [skipped], and counts both tags a
    second time: the stats documents differ. *)
Theorem C1_text_file_counted_twice :
  let run := main Sample.text_files (Some (u"content")) false
               Sample.text_corpus in
  let first := run fresh in
  let second := run (restart first.2) in
  first.1 = Ok [FileSuccess (u"a.txt") [u"天气"; u"运动"] 14] ∧
  progress_json (disk first.2) =
    Some {| doc_processed_files := []; doc_processed_articles := [] |} ∧
  second.1 = Ok [FileSuccess (u"a.txt") [u"天气"; u"运动"] 14] ∧
  requests second.2 = [Sample.WEATHER] ∧
  tags_json (disk first.2) = Some [u"天气"; u"运动"] ∧
  tags_json (disk second.2) = Some [u"天气"; u"运动"] ∧
  tag_counts <$> stats_json (disk first.2) =
    Some [(u"天气", 1%Z); (u"运动", 1%Z)] ∧
  tag_counts <$> stats_json (disk second.2) =
    Some [(u"天气", 2%Z); (u"运动", 2%Z)] ∧
  total_occurrences <$> stats_json (disk first.2) = Some 2%Z ∧
  total_occurrences <$> stats_json (disk second.2) = Some 4%Z ∧
  documents second.2 ≠ documents first.2.
Proof.
  cbv zeta. repeat split; try (vm_compute; reflexivity).
  vm_compute. discriminate.
Qed.

(** The JSON branch does record the path: the same two runs over a JSON
    array leave the same documents, and the second run skips the file
    without a request. *)
Lemma json_array_resumed :
  let run := main Sample.array_files (Some (u"content")) false
               Sample.array_corpus in
  let first := run fresh in
  let second := run (restart first.2) in
  second.1 = Ok [FileSkipped (u"posts.json") already_processed] ∧
  requests second.2 = [] ∧
  documents second.2 = documents first.2 ∧
  total_occurrences <$> stats_json (disk second.2) = Some 4%Z.
Proof. cbv zeta. repeat split; vm_compute; reflexivity. Qed.

(** ** Worker threads *)

(** C3, on the code: two workers on two files of the same base name, so
    that their units share the identifier [x.json#0]. The membership test
    of line 263 and the insertion of line 297 are separate steps that hold
    no lock. Run one after the other, in either order, the later worker
    skips the unit and every tag is counted once; when both pass the test
    before either inserts, both call the service, both merge, and every tag
    is counted twice, which no order of the two tasks gives. *)
Theorem C3_check_then_insert_not_atomic :
  let s0 := Worker.start Sample.twin_tasks fresh in
  let in_turn := Worker.run Sample.twin_corpus Sample.one_after_the_other s0 in
  let reversed :=
    Worker.run Sample.twin_corpus Sample.the_other_way_round s0 in
  let raced := Worker.run Sample.twin_corpus Sample.both_check_first s0 in
  let ok := ArticleSuccess (u"x.json#0") [u"天气"; u"运动"] 14 [] in
  let late := ArticleSkipped (u"x.json#0") already_processed in
  Worker.results in_turn =
    [Some (FileArticles (u"x.json") 1 1 0 0 [ok]);
     Some (FileArticles (u"x.json") 1 0 0 1 [late])] ∧
  tag_counter (self (Worker.world in_turn)) =
    [(u"天气", 1%Z); (u"运动", 1%Z)] ∧
  requests (Worker.world in_turn) = [Sample.WEATHER] ∧
  Worker.results reversed =
    [Some (FileArticles (u"x.json") 1 0 0 1 [late]);
     Some (FileArticles (u"x.json") 1 1 0 0 [ok])] ∧
  tag_counter (self (Worker.world reversed)) =
    [(u"天气", 1%Z); (u"运动", 1%Z)] ∧
  Worker.results raced =
    [Some (FileArticles (u"x.json") 1 1 0 0 [ok]);
     Some (FileArticles (u"x.json") 1 1 0 0 [ok])] ∧
  tag_counter (self (Worker.world raced)) =
    [(u"天气", 2%Z); (u"运动", 2%Z)] ∧
  requests (Worker.world raced) = [Sample.WEATHER; Sample.WEATHER] ∧
  Worker.holds <$> Worker.trace Sample.twin_corpus 1 Sample.both_check_first s0 =
    [Some Worker.file_lock; None; None; None; Some Worker.tag_lock; None;
     None; Some Worker.file_lock] ∧
  (∀ todo done, Worker.holds (Worker.ArticleCheck todo done) = None) ∧
  (∀ a tags todo done, Worker.holds (Worker.Mark a tags todo done) = None).
Proof.
  cbv zeta. repeat split; vm_compute; reflexivity.
Qed.

(** *** A worker left alone runs [process_single_file] *)

Lemma run_alone_add (n m : nat) (env : Env) (t : Worker.task) (p : Worker.pc)
    (w : World) :
  Worker.run_alone (n + m) env t p w =
    let '(p', w') := Worker.run_alone n env t p w in
    Worker.run_alone m env t p' w'.
Proof.
  revert p w. induction n as [|n IH]; intros p w; simpl; [reflexivity|].
  destruct (Worker.step env t p w) as [p1 w1]. apply IH.
Qed.

Lemma run_alone_finished (n : nat) (env : Env) (t : Worker.task)
    (r : file_result) (w : World) :
  Worker.run_alone n env t (Worker.Finished r) w = (Worker.Finished r, w).
Proof. induction n as [|n IH]; simpl; [reflexivity|exact IH]. Qed.

Lemma process_single_article_ok (a : article) (file_name : str)
    (output_file : option str) (incremental_save : bool) (env : Env)
    (w : World) :
  ∃ res w',
    process_single_article a file_name output_file incremental_save env w =
      (Ok res, w').
Proof.
  rewrite process_single_article_eq. cbv zeta.
  destruct (decide _); [eauto|].
  destruct (content a) as [|c s]; [eauto|].
  destruct (generate_tags_ok (c :: s) env w) as ([|x xs] & w1 & -> & _);
    eauto.
Qed.

Lemma for_each_cons {A B} (f : A → M B) (x : A) (xs : list A) (env : Env)
    (w : World) :
  for_each f (x :: xs) env w =
    match f x env w with
    | (Ok r, w1) =>
        match for_each f xs env w1 with
        | (Ok rs, w2) => (Ok (r :: rs), w2)
        | (Raise e, w2) => (Raise e, w2)
        end
    | (Raise e, w1) => (Raise e, w1)
    end.
Proof.
  simpl. unfold bind, ret.
  destruct (f x env w) as [[r|e] w1]; [|reflexivity].
  destruct (for_each f xs env w1) as [[rs|e] w2]; reflexivity.
Qed.

(** The loop over the articles, taken step by step from [ArticleCheck],
    reaches [FileMark] with the results and the world [for_each] gives. *)
Lemma article_loop_alone (env : Env) (t : Worker.task) (todo : list article)
    (done : list article_result) (w : World) :
  ∃ (fuel : nat) (results : list article_result) (w' : World),
    for_each (λ a, process_single_article a
                     (Path.basename (Worker.file_path t))
                     (Worker.output_file t) (Worker.incremental_save t))
      todo env w = (Ok results, w') ∧
    length results = length todo ∧
    Worker.run_alone fuel env t (Worker.ArticleCheck todo done) w =
      (Worker.FileMark (done ++ results), w').
Proof.
  revert done w. induction todo as [|a todo IH]; intros done w.
  - exists 1, [], w. rewrite app_nil_r. auto.
  - rewrite for_each_cons, process_single_article_eq. cbv zeta.
    set (id := article_id (Path.basename (Worker.file_path t)) a).
    destruct (decide (id ∈ processed_articles (self w))) as [Hin|Hout].
    + destruct (IH (done ++ [ArticleSkipped id already_processed]) w)
        as (fuel & results & w' & -> & Hlen & Hrun).
      exists (S fuel), (ArticleSkipped id already_processed :: results), w'.
      split; [reflexivity|]. split; [simpl; lia|].
      simpl. fold id. destruct (decide _); [|contradiction].
      rewrite Hrun, <- app_assoc. reflexivity.
    + destruct (content a) as [|c s] eqn:Hc.
      * destruct (IH (done ++ [ArticleFailed id empty_content]) w)
          as (fuel & results & w' & -> & Hlen & Hrun).
        exists (S fuel), (ArticleFailed id empty_content :: results), w'.
        split; [reflexivity|]. split; [simpl; lia|].
        simpl. fold id. destruct (decide _); [contradiction|].
        rewrite Hc, Hrun, <- app_assoc. reflexivity.
      * destruct (generate_tags_ok (c :: s) env w)
          as ([|x xs] & w1 & Hg & _); rewrite Hg.
        -- destruct (IH (done ++ [ArticleFailed id no_tags_generated]) w1)
             as (fuel & results & w' & -> & Hlen & Hrun).
           exists (S (S fuel)),
             (ArticleFailed id no_tags_generated :: results), w'.
           split; [reflexivity|]. split; [simpl; lia|].
           simpl. fold id. destruct (decide _); [contradiction|].
           rewrite Hc. simpl. rewrite Hc, Hg.
           fold id. rewrite Hrun, <- app_assoc. reflexivity.
        -- set (w2 := mark_article id
                        (merge_block (x :: xs) (Worker.output_file t)
                           (Worker.incremental_save t) w1)).
           destruct (IH (done ++ [ArticleSuccess id (x :: xs)
                                    (length (c :: s)) (metadata a)]) w2)
             as (fuel & results & w' & -> & Hlen & Hrun).
           exists (S (S (S (S fuel)))),
             (ArticleSuccess id (x :: xs) (length (c :: s)) (metadata a)
                :: results), w'.
           split; [reflexivity|]. split; [simpl; lia|].
           simpl. fold id. destruct (decide _); [contradiction|].
           rewrite Hc. simpl. rewrite Hc, Hg. simpl.
           fold id. rewrite Hc. fold w2.
           rewrite Hrun, <- app_assoc. reflexivity.
Qed.

Ltac step_alone :=
  cbn [Worker.run_alone]; unfold Worker.step; cbv beta iota zeta.

(** Run with nobody else moving, the steps of a task end in the result and
    the world of [process_single_file]. *)
Lemma worker_alone_is_process_single_file (env : Env) (t : Worker.task)
    (w : World) :
  ∃ (fuel : nat) (r : file_result) (w' : World),
    process_single_file (Worker.file_path t) (Worker.content_field t)
        (Worker.output_file t) (Worker.incremental_save t) env w =
      (Ok r, w') ∧
    ∀ more : nat,
      Worker.run_alone (fuel + more) env t Worker.FileCheck w =
        (Worker.Finished r, w').
Proof.
  rewrite process_single_file_eq. cbv zeta.
  destruct (decide (Worker.file_path t ∈ processed_files (self w)))
    as [Hin|Hout].
  { exists 1. eexists _, _. split; [reflexivity|]. intros more.
    rewrite run_alone_add. step_alone.
    destruct (decide _); [|contradiction].
    apply run_alone_finished. }
  assert (Hfirst : ∀ n, Worker.run_alone (S n) env t Worker.FileCheck w =
                        Worker.run_alone n env t Worker.ReadFile w).
  { intros n. step_alone. destruct (decide _); [contradiction|reflexivity]. }
  destruct (Path.is_json (Worker.file_path t)) eqn:Hjson.
  - destruct (Extract.read_json_articles env (Worker.file_path t)
                (Worker.content_field t)) as [|a l] eqn:Hread.
    { exists 2. eexists _, _. split; [reflexivity|]. intros more.
      change (2 + more) with (S (S more)). rewrite Hfirst. step_alone.
      rewrite Hjson, Hread. apply run_alone_finished. }
    destruct (article_loop_alone env t (a :: l) [] w)
      as (fuel & results & w' & Hfor & Hlen & Hrun).
    rewrite Hfor.
    exists (2 + (fuel + 1)). eexists _, _. split; [reflexivity|]. intros more.
    change (2 + (fuel + 1) + more) with (S (S (fuel + 1 + more))).
    rewrite Hfirst. step_alone. rewrite Hjson, Hread.
    change ([] ++ results) with results in Hrun.
    rewrite <- Nat.add_assoc, run_alone_add, Hrun.
    change (1 + more) with (S more). step_alone.
    rewrite Hlen. apply run_alone_finished.
  - destruct (Extract.read_article env (Worker.file_path t)
                (Worker.content_field t)) as [|c s] eqn:Hread.
    { exists 2. eexists _, _. split; [reflexivity|]. intros more.
      change (2 + more) with (S (S more)). rewrite Hfirst. step_alone.
      rewrite Hjson, Hread. apply run_alone_finished. }
    destruct (generate_tags_ok (c :: s) env w) as ([|x xs] & w1 & Hg & _);
      rewrite Hg.
    + exists 3. eexists _, _. split; [reflexivity|]. intros more.
      change (3 + more) with (S (S (S more))). rewrite Hfirst. step_alone.
      rewrite Hjson, Hread. step_alone. rewrite Hg.
      apply run_alone_finished.
    + exists 4. eexists _, _. split; [reflexivity|]. intros more.
      change (4 + more) with (S (S (S (S more)))). rewrite Hfirst. step_alone.
      rewrite Hjson, Hread. step_alone. rewrite Hg. step_alone.
      apply run_alone_finished.
Qed.

(** ** Resume of JSON files *)

(** The first run over JSON files records every file that yielded a unit;
    the second run finds it recorded, or finds it as empty as before. *)



Lemma process_files_cons (file_path : str) (file_paths : list str)
    (content_field output_file : option str) (incremental_save : bool)
    (env : Env) (w : World) (r : file_result) (w1 : World) :
  process_single_file file_path content_field output_file incremental_save
    env w = (Ok r, w1) →
  process_files (file_path :: file_paths) content_field output_file
      incremental_save env w =
    match process_files file_paths content_field output_file
            incremental_save env w1 with
    | (Ok rs, w2) => (Ok (r :: rs), w2)
    | (Raise e, w2) => (Raise e, w2)
    end.
Proof.
  intros H. unfold process_files. rewrite for_each_cons.
  unfold try_except at 1. rewrite H. reflexivity.
Qed.



(** *** Sorting what is sorted *)

Section Insertion_sort.

Context {A : Type} (ahead : A → A → bool).
Hypothesis ahead_asym : ∀ x y, ahead y x = true → ahead x y = false.

(** [before x y]: nothing moves [y] in front of [x]. *)
Let before (x y : A) : Prop := ahead y x = false.

Lemma insert_sorted_Sorted (x : A) (l : list A) :
  Sorted before l → Sorted before (Store.insert_sorted ahead x l).
Proof.
  induction 1 as [|y l Hl IH Hhd]; simpl.
  - repeat constructor.
  - destruct (ahead y x) eqn:E.
    + constructor; [exact IH|].
      destruct Hhd as [|z l Hyz]; simpl.
      * constructor. apply ahead_asym, E.
      * destruct (ahead z x); constructor;
          [exact Hyz|apply ahead_asym, E].
    + repeat constructor; assumption.
Qed.

Lemma sort_by_Sorted (l : list A) : Sorted before (Store.sort_by ahead l).
Proof.
  induction l as [|x l IH]; simpl; [constructor|].
  apply insert_sorted_Sorted, IH.
Qed.



End Insertion_sort.


Lemma total_perm (c c' : list (str * Z)) :
  c ≡ₚ c' → Store.total c = Store.total c'.
Proof.
  unfold Store.total.
  induction 1; simpl; try lia.
Qed.


(** What a new process loads from the documents a finished run wrote. *)
Lemma load_after_final_save (w : World) :
  self (Persist.load_state
          (restart (Persist.save_state (Persist.save_tags w)))) =
    {| tag_pool := tag_pool (self w);
       tag_counter := Store.most_common (tag_counter (self w));
       processed_files := processed_files (self w);
       processed_articles := processed_articles (self w) |}.
Proof.
  unfold Persist.load_state, restart, Persist.save_state, Persist.save_tags.
  simpl.
  unfold Persist.load_progress, Persist.load_counter, Persist.load_pool.
  simpl. rewrite sorted_to_set, !list_to_set_elements_L. reflexivity.
Qed.





(** ** The merge section in the worker model *)

(** With incremental save on, the step under [tag_lock] writes the progress
    document from the processed sets it finds and leaves them as they are;
    the identifier is added by the step after it, which writes nothing. *)
Lemma merge_step_saves_then_mark (env : Env) (t : Worker.task) (a : article)
    (tags : list str) (todo : list article) (done : list article_result)
    (w : World) :
  truthy (Worker.output_file t) = true →
  Worker.incremental_save t = true →
  let merge := Worker.Merge a tags todo done in
  let id := article_id (Path.basename (Worker.file_path t)) a in
  let at_mark := Worker.step env t merge w in
  let after := Worker.step env t at_mark.1 at_mark.2 in
  Worker.holds merge = Some Worker.tag_lock ∧
  at_mark.1 = Worker.Mark a tags todo done ∧
  Worker.holds at_mark.1 = None ∧
  progress_json (disk at_mark.2) = Some (Persist.progress_data (self w)) ∧
  stats_json (disk at_mark.2) =
    Some (Persist.stats_data (Store.merge tags (self w))) ∧
  processed_articles (self at_mark.2) = processed_articles (self w) ∧
  processed_articles (self after.2) = processed_articles (self w) ∪ {[id]} ∧
  disk after.2 = disk at_mark.2.
Proof.
  intros Hout Hinc. cbv zeta. simpl.
  unfold merge_block. rewrite Hout, Hinc. simpl. repeat split.
Qed.

(** ** Merge order *)

Lemma count_incr (tag t : str) (counter : list (str * Z)) :
  Store.count t (Store.incr tag counter) =
    (Store.count t counter + if Str.eqb tag t then 1 else 0)%Z.
Proof.
  induction counter as [|[k n] counter IH]; simpl.
  - destruct (Str.eqb tag t); reflexivity.
  - destruct (Str.eqb k tag) eqn:Ek; simpl.
    + apply str_eqb_eq in Ek as ->.
      destruct (Str.eqb tag t); lia.
    + destruct (Str.eqb k t) eqn:Et; [|exact IH].
      apply str_eqb_eq in Et as ->.
      destruct (Str.eqb tag t) eqn:E; [|lia].
      apply str_eqb_eq in E as ->. rewrite str_eqb_refl in Ek. discriminate.
Qed.

Lemma count_update (tags : list str) (t : str) (counter : list (str * Z)) :
  Store.count t (Store.update tags counter) =
    (Store.count t counter + occurrences t tags)%Z.
Proof.
  unfold Store.update, occurrences. revert counter.
  induction tags as [|tag tags IH]; intros counter; simpl; [lia|].
  rewrite IH, count_incr. destruct (Str.eqb tag t); simpl length; lia.
Qed.

Lemma same_store_refl (p : TagProcessor) : same_store p p.
Proof. split; reflexivity. Qed.

Lemma same_store_trans (p q r : TagProcessor) :
  same_store p q → same_store q r → same_store p r.
Proof.
  intros [Hp Hc] [Hp' Hc']. split; [congruence|].
  intros tag. rewrite Hc. apply Hc'.
Qed.

Lemma merge_same_store (tags : list str) (p q : TagProcessor) :
  same_store p q → same_store (Store.merge tags p) (Store.merge tags q).
Proof.
  intros [Hp Hc]. split; simpl; [rewrite Hp; reflexivity|].
  intros tag. rewrite !count_update, Hc. reflexivity.
Qed.

Lemma merge_swap (a b : list str) (p : TagProcessor) :
  same_store (Store.merge a (Store.merge b p)) (Store.merge b (Store.merge a p)).
Proof.
  split; simpl; [set_solver|].
  intros tag. rewrite !count_update. lia.
Qed.

Lemma merge_all_same_store (tag_lists : list (list str)) (p q : TagProcessor) :
  same_store p q → same_store (merge_all tag_lists p) (merge_all tag_lists q).
Proof.
  revert p q. induction tag_lists as [|tags l IH]; intros p q H; [exact H|].
  apply IH, merge_same_store, H.
Qed.

(** X2: merge commutativity. Merging the tag lists of a fixed set of units
    in any order gives the same distinct-tag set and the same count for
    every tag. *)
Theorem merge_order_irrelevant (l1 l2 : list (list str)) (p : TagProcessor) :
  l1 ≡ₚ l2 → same_store (merge_all l1 p) (merge_all l2 p).
Proof.
  intros Hperm. revert p.
  induction Hperm as [|tags l l' _ IH|a b l|l l' l'' _ IH1 _ IH2]; intros p.
  - apply same_store_refl.
  - apply IH.
  - apply (merge_all_same_store l (Store.merge a (Store.merge b p))
             (Store.merge b (Store.merge a p))), merge_swap.
  - exact (same_store_trans _ _ _ (IH1 p) (IH2 p)).
Qed.

Lemma merge_order_irrelevant_witness :
  same_store
    (merge_all [[u"天气"; u"运动"]; [u"运动"; u"美食"]] init)
    (merge_all [[u"运动"; u"美食"]; [u"天气"; u"运动"]] init).
Proof.
  apply (merge_order_irrelevant [[u"天气"; u"运动"]; [u"运动"; u"美食"]]
           [[u"运动"; u"美食"]; [u"天气"; u"运动"]] init).
  apply Permutation_swap.
Defined.

(** ** JSON arrays *)

(** An array with a gap: the second of three elements has no recognised
    content field, and the two units are identified by the base name of the
    file and the array indices 0 and 2. *)
Theorem array_with_gap_yields_two_units :
  let articles :=
    Extract.read_json_articles Sample.gap_corpus
      (u"post-tags/data/posts.json") None in
  article_id (Path.basename (u"post-tags/data/posts.json")) <$> articles =
    [u"posts.json#0"; u"posts.json#2"] ∧
  content <$> articles = [u"first"; u"third"].
Proof. cbv zeta. split; vm_compute; reflexivity. Qed.

(** ** Incremental save under interleaving *)

(** Identifiers of units of differently named files differ: the index is
    written in decimal digits, so the last [#] of an identifier ends the
    file name. *)











(** * Further properties of the code *)

(** ** Content Extractor *)

Lemma bytes_inj (s s' : string) : Utf8.bytes s = Utf8.bytes s' → s = s'.
Proof.
  revert s'. induction s as [|a s IH]; intros [|a' s']; simpl; try easy.
  intros [= Ha Hs]. f_equal; [|apply IH, Hs].
  rewrite <- (ascii_N_embedding a), <- (ascii_N_embedding a'), Ha.
  reflexivity.
Qed.

Lemma of_nat_inj (n m : nat) : Str.of_nat n = Str.of_nat m → n = m.
Proof.
  unfold Str.of_nat. intros H. apply bytes_inj in H.
  assert (Hu : Nat.to_uint n = Nat.to_uint m).
  { pose proof (NilEmpty.usu (Nat.to_uint n)) as Hn.
    pose proof (NilEmpty.usu (Nat.to_uint m)) as Hm.
    rewrite H in Hn. congruence. }
  rewrite <- (DecimalNat.Unsigned.of_to n), <- (DecimalNat.Unsigned.of_to m).
  rewrite Hu. reflexivity.
Qed.

Lemma article_id_index (file_name : str) (a a' : article) :
  article_id file_name a = article_id file_name a' → index a = index a'.
Proof.
  unfold article_id. intros H. apply app_inv_head in H.
  injection H as H. apply of_nat_inj, H.
Qed.

(** The articles of an array, element by element. *)
Lemma articles_from_elem (env : Env) (content_field : option str) (i : nat)
    (data : list json) (a : article) :
  a ∈ Extract.articles_from env content_field i data ↔
  ∃ (k : nat) (d : list (str * json)),
    index a = i + k ∧
    data !! k = Some (JObj d) ∧
    Extract.resolve env content_field d = Some (content a) ∧
    content a ≠ [] ∧
    metadata a = Extract.metadata_of content_field d.
Proof.
  revert i. induction data as [|item data IH]; intros i;
    cbn [Extract.articles_from].
  - split; [intros H; inversion H|intros (k & d & _ & H & _); discriminate H].
  - rewrite elem_of_app, IH. split.
    + intros [H|(k & d & Hi & Hk & Hr)].
      * destruct item as [| | |d]; try (inversion H; fail).
        destruct (Extract.resolve env content_field d) as [[|c s]|] eqn:E;
          try (inversion H; fail).
        apply list_elem_of_singleton in H as ->. simpl.
        exists 0, d. rewrite Nat.add_0_r. repeat split; try easy.
      * exists (S k), d. split; [lia|]. exact (conj Hk Hr).
    + intros ([|k] & d & Hi & Hk & Hr & Hne & Hm).
      * left. simpl in Hk. injection Hk as ->. rewrite Hr.
        destruct (content a) as [|c s] eqn:Ec; [contradiction|].
        apply list_elem_of_singleton. destruct a as [ix ct md]. simpl in *.
        subst. f_equal. lia.
      * right. exists k, d. split; [lia|]. simpl in Hk. repeat split; assumption.
Qed.

Lemma articles_from_indices (env : Env) (content_field : option str)
    (i : nat) (data : list json) :
  Forall (λ a, i ≤ index a) (Extract.articles_from env content_field i data) ∧
  StronglySorted lt (index <$> Extract.articles_from env content_field i data).
Proof.
  revert i. induction data as [|item data IH]; intros i;
    cbn [Extract.articles_from]; [split; constructor|].
  destruct (IH (S i)) as [Hge Hsorted].
  assert (Hge' : Forall (λ a, i ≤ index a)
                   (Extract.articles_from env content_field (S i) data)).
  { eapply Forall_impl; [exact Hge|]. simpl. intros a Ha. lia. }
  destruct item as [| | |d]; try (split; assumption).
  destruct (Extract.resolve env content_field d) as [[|c s]|];
    try (split; assumption).
  simpl. split.
  - constructor; [simpl; lia|exact Hge'].
  - constructor; [exact Hsorted|].
    rewrite Forall_fmap. eapply Forall_impl; [exact Hge|].
    simpl. intros a Ha. lia.
Qed.

(** X3: every unit [read_json_articles] returns stands for an object of the
    array at the unit's index, with the non-empty text resolved from that
    object and the object's items but the [content_field] key as metadata,
    and every such object gives a unit; the units come in increasing index
    order, and their identifiers within one file are pairwise distinct. A
    file that cannot be loaded or holds no array gives no unit. *)
Theorem read_json_articles_units (env : Env) (file_path : str)
    (content_field : option str) :
  let articles := Extract.read_json_articles env file_path content_field in
  (∀ a : article,
     a ∈ articles ↔
     ∃ (data : list json) (d : list (str * json)),
       load_json env file_path = Some (JArr data) ∧
       data !! index a = Some (JObj d) ∧
       Extract.resolve env content_field d = Some (content a) ∧
       content a ≠ [] ∧
       metadata a = Extract.metadata_of content_field d) ∧
  StronglySorted lt (index <$> articles) ∧
  NoDup (article_id (Path.basename file_path) <$> articles) ∧
  ((∀ data, load_json env file_path ≠ Some (JArr data)) → articles = []).
Proof.
  cbv zeta. unfold Extract.read_json_articles.
  destruct (load_json env file_path) as [[| |data|]|] eqn:Hload;
    try (repeat split;
         [intros H; inversion H
         |intros (data' & d & Hd & _); discriminate Hd
         |constructor|constructor]).
  destruct (articles_from_indices env content_field 0 data) as [_ Hsorted].
  split; [|split; [exact Hsorted|split]].
  - intros a. rewrite articles_from_elem. split.
    + intros (k & d & Hi & Hk & Hr). simpl in Hi. subst k.
      exists data, d. split; [reflexivity|exact (conj Hk Hr)].
    + intros (data' & d & [= <-] & Hk & Hr).
      exists (index a), d. split; [reflexivity|exact (conj Hk Hr)].
  - assert (Hix : NoDup (index <$> Extract.articles_from env content_field 0
                                     data)).
    { clear -Hsorted.
      induction Hsorted as [|x l Hl IH Hx]; constructor; [|exact IH].
      intros Hin. rewrite Forall_forall in Hx. specialize (Hx x Hin). lia. }
    set (name := Path.basename file_path).
    replace (article_id name <$> Extract.articles_from env content_field 0
                                   data)
      with ((λ i, name ++ Str.HASH :: Str.of_nat i) <$>
              (index <$> Extract.articles_from env content_field 0 data))
      by (rewrite <- list_fmap_compose; reflexivity).
    apply NoDup_fmap_2; [|exact Hix].
    intros x y H. apply app_inv_head in H. injection H as H.
    apply of_nat_inj, H.
  - intros H. exfalso. exact (H data eq_refl).
Qed.

Lemma lookup_None_keys (field : str) (d : list (str * json)) :
  Extract.lookup field d = None ↔ field ∉ d.*1.
Proof.
  induction d as [|[k v] d IH]; simpl.
  - split; [intros _ H; inversion H|reflexivity].
  - rewrite not_elem_of_cons. destruct (Str.eqb k field) eqn:E.
    + apply str_eqb_eq in E. split; [discriminate|intros [H _]; congruence].
    + rewrite IH. split; [|tauto]. intros H. split; [|exact H].
      intros ->. rewrite str_eqb_refl in E. discriminate.
Qed.

Lemma first_field_first_match (env : Env) (names : list str)
    (d : list (str * json)) :
  match Extract.first_field env names d with
  | Some text =>
      ∃ before field after v,
        names = before ++ field :: after ∧
        Forall (λ g, g ∉ d.*1) before ∧
        Extract.lookup field d = Some v ∧
        text = Str.strip (Extract.py_str env v)
  | None => Forall (λ g, g ∉ d.*1) names
  end.
Proof.
  induction names as [|f names IH]; simpl; [constructor|].
  destruct (Extract.lookup f d) as [v|] eqn:E.
  - exists [], f, names, v. repeat split; [constructor|exact E].
  - apply lookup_None_keys in E.
    destruct (Extract.first_field env names d) as [text|].
    + destruct IH as (before & field & after & v & -> & Hb & Hl & ->).
      exists (f :: before), field, after, v.
      repeat split; [constructor; assumption|exact Hl].
    + constructor; assumption.
Qed.

Lemma resolve_field_order (env : Env) (content_field : option str)
    (d : list (str * json)) :
  Extract.resolve env content_field d =
    Extract.first_field env (field_order content_field) d.
Proof.
  destruct content_field as [[|c s]|]; reflexivity.
Qed.

Lemma first_match_unique (d : list (str * json)) (names : list str)
    (before : list str) (field : str) (after : list str) (v : json)
    (before' : list str) (field' : str) (after' : list str) (v' : json) :
  names = before ++ field :: after →
  names = before' ++ field' :: after' →
  Forall (λ g, g ∉ d.*1) before → Forall (λ g, g ∉ d.*1) before' →
  Extract.lookup field d = Some v →
  Extract.lookup field' d = Some v' → v = v'.
Proof.
  intros -> E Hb Hb' Hl Hl'. revert before' E Hb Hb'.
  induction before as [|b before IH]; intros [|b' before'] E Hb Hb';
    simpl in E.
  - injection E as <- _. congruence.
  - injection E as <- _. inversion Hb' as [|? ? Hmiss _]; subst.
    apply lookup_None_keys in Hmiss. congruence.
  - injection E as -> _. inversion Hb as [|? ? Hmiss _]; subst.
    apply lookup_None_keys in Hmiss. congruence.
  - injection E as <- E. inversion Hb; inversion Hb'; subst.
    eapply IH; eauto.
Qed.

(** X5: the text of a JSON object is taken from the first key the object
    has among [content_field] (when given and not empty) and then
    [content], [text], [body], [description]: a [content_field] the object
    lacks is passed over without an error, and no text is found exactly
    when the object has none of these keys. The metadata are the items of
    the object whose key is not [content_field], so a field the text was
    taken from by fallback stays among them. *)
Theorem content_field_first_match (env : Env) (content_field : option str)
    (d : list (str * json)) :
  (Extract.resolve env content_field d = None ↔
   Forall (λ g, g ∉ d.*1) (field_order content_field)) ∧
  (∀ text : str,
     Extract.resolve env content_field d = Some text ↔
     ∃ before field after v,
       field_order content_field = before ++ field :: after ∧
       Forall (λ g, g ∉ d.*1) before ∧
       Extract.lookup field d = Some v ∧
       text = Str.strip (Extract.py_str env v)) ∧
  (∀ (k : str) (v : json),
     (k, v) ∈ Extract.metadata_of content_field d ↔
     (k, v) ∈ d ∧ Some k ≠ content_field).
Proof.
  rewrite resolve_field_order.
  pose proof (first_field_first_match env (field_order content_field) d) as H.
  assert (Hdet := first_match_unique d (field_order content_field)).
  split; [|split].
  - destruct (Extract.first_field env (field_order content_field) d)
      as [text|]; [|tauto].
    split; [discriminate|]. intros Hall.
    destruct H as (before & field & after & v & E & _ & Hl & _).
    rewrite E in Hall. apply Forall_app in Hall as [_ Hall].
    inversion Hall as [|? ? Hmiss _]; subst.
    apply lookup_None_keys in Hmiss. congruence.
  - intros text.
    destruct (Extract.first_field env (field_order content_field) d)
      as [text'|].
    + destruct H as (before & field & after & v & E & Hb & Hl & ->). split.
      * intros [= <-]. exists before, field, after, v. auto.
      * intros (before' & field' & after' & v' & E' & Hb' & Hl' & ->).
        rewrite (Hdet _ _ _ _ _ _ _ _ E E' Hb Hb' Hl Hl'). reflexivity.
    + split; [discriminate|].
      intros (before & field & after & v & E & _ & Hl & _).
      rewrite E in H. apply Forall_app in H as [_ H].
      inversion H as [|? ? Hmiss _]; subst.
      apply lookup_None_keys in Hmiss. congruence.
  - intros k v. unfold Extract.metadata_of.
    rewrite list_elem_of_filter. simpl. tauto.
Qed.

(** ** What the parser can return *)

Lemma lstrip_by_suffix p (s : str) : ∃ k, s = k ++ Str.lstrip_by p s.
Proof.
  induction s as [|c s [k IH]]; simpl; [exists []; reflexivity|].
  destruct (p c); [|exists []; reflexivity].
  exists (c :: k). simpl. f_equal. exact IH.
Qed.

Lemma strip_by_sublist p (s : str) : Str.strip_by p s `sublist_of` s.
Proof.
  unfold Str.strip_by, Str.rstrip_by.
  destruct (lstrip_by_suffix p s) as [k Hk].
  set (L := Str.lstrip_by p s) in *.
  destruct (lstrip_by_suffix p (rev L)) as [k' Hk'].
  set (R := Str.lstrip_by p (rev L)) in *.
  assert (HL : L = rev R ++ rev k').
  { rewrite <- rev_app_distr, <- Hk', rev_involutive. reflexivity. }
  clearbody L R. subst s L.
  apply sublist_inserts_l, sublist_inserts_r. reflexivity.
Qed.

Lemma strip_by_all p (s : str) :
  Forall (λ c, p c = true) s → Str.strip_by p s = [].
Proof.
  intros H. unfold Str.strip_by, Str.rstrip_by.
  assert (Hl : Str.lstrip_by p s = []).
  { induction H as [|c s Hc _ IH]; simpl; [reflexivity|]. rewrite Hc. exact IH. }
  rewrite Hl. reflexivity.
Qed.

Lemma split_segments (sep : char) (s : str) :
  Forall (λ seg, seg `sublist_of` s ∧ sep ∉ seg) (Str.split sep s).
Proof.
  induction s as [|c s IH]; simpl.
  - repeat constructor. intros H. inversion H.
  - destruct (c =? sep)%N eqn:E.
    + constructor.
      * split; [apply sublist_nil_l|]. intros H. inversion H.
      * eapply Forall_impl; [exact IH|]. simpl. intros seg [Hs Hn].
        split; [apply sublist_cons, Hs|exact Hn].
    + apply N.eqb_neq in E.
      destruct (Str.split sep s) as [|seg rest].
      * constructor; [|constructor].
        split; [apply sublist_skip, sublist_nil_l|].
        intros H. apply list_elem_of_singleton in H. congruence.
      * inversion IH as [|? ? [Hs Hn] Hrest]; subst. constructor.
        -- split; [apply sublist_skip, Hs|].
           rewrite not_elem_of_cons. split; [congruence|exact Hn].
        -- eapply Forall_impl; [exact Hrest|]. simpl. intros seg' [Hs' Hn'].
           split; [apply sublist_cons, Hs'|exact Hn'].
Qed.

Lemma span_no_hash_app (s : str) :
  s = (Re.span_no_hash s).1 ++ (Re.span_no_hash s).2.
Proof.
  induction s as [|c s IH]; simpl; [reflexivity|].
  destruct (c =? Str.HASH)%N; [reflexivity|].
  destruct (Re.span_no_hash s) as [run rest]. simpl in *. f_equal. exact IH.
Qed.

Lemma match_plus_shape (s : str) group rest :
  Re.match_plus s = Some (group, rest) →
  ∃ open close, s = open :: group ++ close :: rest.
Proof.
  destruct s as [|c t]; simpl; [easy|].
  destruct (c =? Str.HASH)%N; [|easy].
  pose proof (span_no_hash_app t) as H.
  destruct (Re.span_no_hash t) as [[|g gs] [|h r]]; try easy.
  intros [= <- <-]. simpl in H. exists c, h. rewrite H. reflexivity.
Qed.

Lemma match_star_shape (s : str) rest :
  Re.match_star s = Some rest → ∃ removed, s = removed ++ rest.
Proof.
  destruct s as [|c t]; simpl; [easy|].
  destruct (c =? Str.HASH)%N; [|easy].
  pose proof (span_no_hash_app t) as H.
  destruct (Re.span_no_hash t) as [g [|h r]]; try easy.
  intros [= <-]. simpl in H. exists (c :: g ++ [h]).
  rewrite H. simpl. rewrite <- app_assoc. reflexivity.
Qed.

Lemma findall_sublist (s : str) :
  Forall (λ group, group `sublist_of` s) (Re.findall s).
Proof.
  remember (length s) as n eqn:Hn. revert s Hn.
  induction n as [n IH] using lt_wf_ind. intros [|c t] Hn.
  - constructor.
  - rewrite findall_scan.
    destruct (Re.match_plus (c :: t)) as [[group rest]|] eqn:E.
    + pose proof (match_plus_length _ _ _ E) as Hlen.
      destruct (match_plus_shape _ _ _ E) as (o & cl & Hs).
      rewrite Hs. constructor.
      * apply sublist_cons, sublist_inserts_r. reflexivity.
      * eapply Forall_impl; [apply (IH (length rest)); [lia|reflexivity]|].
        simpl. intros g Hg.
        apply sublist_cons, sublist_inserts_l, sublist_cons, Hg.
    + eapply Forall_impl; [apply (IH (length t)); [simpl in Hn; lia|reflexivity]|].
      simpl. intros g Hg. apply sublist_cons, Hg.
Qed.

Lemma sub_sublist (s : str) : Re.sub s `sublist_of` s.
Proof.
  remember (length s) as n eqn:Hn. revert s Hn.
  induction n as [n IH] using lt_wf_ind. intros [|c t] Hn.
  - reflexivity.
  - rewrite sub_scan.
    destruct (Re.match_star (c :: t)) as [rest|] eqn:E.
    + pose proof (match_star_length _ _ E) as Hlen.
      destruct (match_star_shape _ _ E) as (removed & Hs).
      rewrite Hs. apply sublist_inserts_l.
      apply (IH (length rest)); [lia|reflexivity].
    + apply sublist_skip. apply (IH (length t)); [simpl in Hn; lia|reflexivity].
Qed.

Lemma candidates_sublist (tag_part : str) :
  Forall (λ c, c `sublist_of` tag_part) (Parser.candidates tag_part).
Proof.
  unfold Parser.candidates.
  pose proof (strip_by_sublist Str.isspace tag_part) as Hs.
  fold (Str.strip tag_part) in Hs.
  destruct (Str.strip tag_part) as [|c t] eqn:E; [constructor|].
  destruct (Str.mem Str.HASH (c :: t)).
  - cbv zeta. apply Forall_app. split.
    + eapply Forall_impl; [apply findall_sublist|]. simpl.
      intros g Hg. etransitivity; [exact Hg|exact Hs].
    + pose proof (strip_by_sublist Str.isspace (Re.sub (c :: t))) as Hr.
      fold (Str.strip (Re.sub (c :: t))) in Hr.
      destruct (Str.strip (Re.sub (c :: t))); constructor; [|constructor].
      etransitivity; [exact Hr|].
      etransitivity; [apply sub_sublist|exact Hs].
  - repeat constructor. exact Hs.
Qed.

Lemma clean_sublist (tag kept : str) :
  Parser.clean tag = Some kept → kept `sublist_of` tag ∧ 2 ≤ length kept.
Proof.
  unfold Parser.clean. cbv zeta.
  destruct (2 <=? length (Str.strip tag)); [|discriminate].
  destruct (2 <=? length (Str.strip_chars Parser.PUNCT (Str.strip tag)))
    eqn:E; [|discriminate].
  intros [= <-]. apply Nat.leb_le in E. split; [|exact E].
  etransitivity; apply strip_by_sublist.
Qed.

(** X6: every tag [generate_tags] parses out of a response has at least 2
    characters, holds no comma, and is made of characters of the response
    in their order (a subsequence of it); a response of white space only
    gives no tag. *)
Theorem parse_tags_wellformed (content : str) :
  Forall (λ tag, 2 ≤ length tag ∧ (Str.COMMA ∉ tag) ∧ tag `sublist_of` content)
         (Parser.parse content) ∧
  (Forall (λ c, Str.isspace c = true) content → Parser.parse content = []).
Proof.
  split.
  - unfold Parser.parse. cbv zeta. apply Forall_take.
    unfold Parser.tags, Parser.raw_tags.
    pose proof (strip_by_sublist Str.isspace content) as Hstrip.
    fold (Str.strip content) in Hstrip.
    pose proof (split_segments Str.COMMA (Str.strip content)) as Hsplit.
    rewrite Forall_forall. intros tag Htag.
    apply list_elem_of_omap in Htag as (cand & Hcand & Hclean).
    apply list_elem_of_In, in_flat_map in Hcand as (seg & Hseg & Hcand).
    apply list_elem_of_In in Hseg, Hcand.
    rewrite Forall_forall in Hsplit. destruct (Hsplit seg Hseg) as [Hsub Hno].
    pose proof (candidates_sublist seg) as Hc. rewrite Forall_forall in Hc.
    specialize (Hc cand Hcand).
    destruct (clean_sublist _ _ Hclean) as [Hk Hlen].
    assert (Htag_seg : tag `sublist_of` seg) by (etransitivity; eassumption).
    split; [exact Hlen|]. split.
    + intros Hin. apply Hno. eapply sublist_subseteq; eassumption.
    + etransitivity; [exact Htag_seg|]. etransitivity; eassumption.
  - intros Hws. unfold Parser.parse, Str.strip.
    rewrite (strip_by_all _ _ Hws). reflexivity.
Qed.

(** ** What a run does to the store *)

Lemma update_app (tags tags' : list str) (counter : list (str * Z)) :
  Store.update (tags ++ tags') counter =
    Store.update tags' (Store.update tags counter).
Proof. unfold Store.update. apply fold_left_app. Qed.

Lemma grows_by_nothing (w : World) : grows_by [] w w.
Proof.
  repeat split; try reflexivity.
  - simpl. set_solver.
  - exists []. rewrite app_nil_r. reflexivity.
Qed.

Lemma grows_by_trans (tags tags' : list str) (w w1 w2 : World) :
  grows_by tags w w1 → grows_by tags' w1 w2 → grows_by (tags ++ tags') w w2.
Proof.
  intros (Hc & Hp & Hf & Ha & sent & Hr) (Hc' & Hp' & Hf' & Ha' & sent' & Hr').
  split; [rewrite Hc', Hc, update_app; reflexivity|].
  split; [rewrite Hp', Hp, list_to_set_app_L; set_solver|].
  split; [set_solver|]. split; [set_solver|].
  exists (sent ++ sent'). rewrite Hr', Hr, app_assoc. reflexivity.
Qed.

Lemma generate_tags_requests (content : str) (env : Env) (w : World) :
  ∃ tags w', generate_tags content env w = (Ok tags, w') ∧
             self w' = self w ∧ ∃ sent, requests w' = requests w ++ sent.
Proof.
  rewrite generate_tags_eq. destruct content as [|c s].
  - exists [], w. repeat split. exists []. rewrite app_nil_r. reflexivity.
  - eexists _, _. split; [reflexivity|]. split; [reflexivity|].
    simpl. eauto.
Qed.

Lemma merge_block_self (tags : list str) (output_file : option str)
    (incremental_save : bool) (w : World) :
  self (merge_block tags output_file incremental_save w) =
    Store.merge tags (self w) ∧
  requests (merge_block tags output_file incremental_save w) = requests w.
Proof.
  unfold merge_block.
  destruct (truthy output_file && incremental_save); split; reflexivity.
Qed.

Lemma process_single_article_grows (a : article) (file_name : str)
    (output_file : option str) (incremental_save : bool) (env : Env)
    (w : World) :
  ∃ res w',
    process_single_article a file_name output_file incremental_save env w =
      (Ok res, w') ∧
    grows_by (article_tags res) w w'.
Proof.
  rewrite process_single_article_eq. cbv zeta.
  destruct (decide _); [eexists _, _; split;
                          [reflexivity|apply grows_by_nothing]|].
  destruct (content a) as [|c s];
    [eexists _, _; split; [reflexivity|apply grows_by_nothing]|].
  destruct (generate_tags_requests (c :: s) env w)
    as ([|x xs] & w1 & -> & Hs & sent & Hr).
  - eexists _, _. split; [reflexivity|]. simpl.
    unfold grows_by. rewrite Hs. repeat split; try reflexivity.
    + simpl. set_solver.
    + eauto.
  - eexists _, _. split; [reflexivity|]. simpl.
    destruct (merge_block_self (x :: xs) output_file incremental_save w1)
      as [Hm Hq].
    unfold grows_by. simpl. rewrite Hm, Hq. simpl. rewrite Hs.
    repeat split; try reflexivity; try set_solver; eauto.
Qed.

Lemma for_each_articles_grows (file_name : str) (output_file : option str)
    (incremental_save : bool) (articles : list article) (env : Env)
    (w : World) :
  ∃ results w',
    for_each (λ a, process_single_article a file_name output_file
                     incremental_save) articles env w = (Ok results, w') ∧
    length results = length articles ∧
    grows_by (concat (map article_tags results)) w w'.
Proof.
  revert w. induction articles as [|a articles IH]; intros w.
  - exists [], w. split; [reflexivity|]. split; [reflexivity|].
    apply grows_by_nothing.
  - rewrite for_each_cons.
    destruct (process_single_article_grows a file_name output_file
                incremental_save env w) as (r & w1 & -> & Hg).
    destruct (IH w1) as (rs & w2 & -> & Hlen & Hg').
    eexists _, _. split; [reflexivity|]. split; [simpl; lia|].
    simpl. eapply grows_by_trans; eassumption.
Qed.

Lemma count_status_partition (results : list article_result) :
  length results =
    count_status success results + count_status failed results +
    count_status skipped results.
Proof.
  unfold count_status.
  induction results as [|r results IH]; simpl; [reflexivity|].
  destruct r; simpl; lia.
Qed.

Lemma process_single_file_grows (file_path : str)
    (content_field output_file : option str) (incremental_save : bool)
    (env : Env) (w : World) :
  ∃ r w',
    process_single_file file_path content_field output_file incremental_save
      env w = (Ok r, w') ∧
    grows_by (reported_tags r) w w' ∧
    counts_add_up r.
Proof.
  rewrite process_single_file_eq. cbv zeta.
  destruct (decide _);
    [eexists _, _; split; [reflexivity|split;
       [apply grows_by_nothing|exact I]]|].
  destruct (Path.is_json file_path).
  - destruct (Extract.read_json_articles env file_path content_field)
      as [|a l];
      [eexists _, _; split; [reflexivity|split;
         [apply grows_by_nothing|exact I]]|].
    destruct (for_each_articles_grows (Path.basename file_path) output_file
                incremental_save (a :: l) env w)
      as (rs & w1 & -> & Hlen & Hc & Hp & Hf & Ha & Hr).
    eexists _, _. split; [reflexivity|]. split.
    + unfold grows_by. simpl. repeat split; try assumption. set_solver.
    + simpl. pose proof (count_status_partition rs). simpl in Hlen.
      repeat split; lia.
  - destruct (Extract.read_article env file_path content_field) as [|c s];
      [eexists _, _; split; [reflexivity|split;
         [apply grows_by_nothing|exact I]]|].
    destruct (generate_tags_requests (c :: s) env w)
      as ([|x xs] & w1 & -> & Hs & sent & Hr).
    + eexists _, _. split; [reflexivity|]. split; [|exact I]. simpl.
      unfold grows_by. rewrite Hs. repeat split; try reflexivity.
      * simpl. set_solver.
      * eauto.
    + eexists _, _. split; [reflexivity|]. split; [|exact I]. simpl.
      unfold grows_by. simpl. rewrite Hs.
      repeat split; try reflexivity. eauto.
Qed.

Lemma process_files_grows (file_paths : list str)
    (content_field output_file : option str) (incremental_save : bool)
    (env : Env) (w : World) :
  ∃ rs w',
    process_files file_paths content_field output_file incremental_save
      env w = (Ok rs, w') ∧
    length rs = length file_paths ∧
    grows_by (concat (map reported_tags rs)) w w' ∧
    Forall counts_add_up rs.
Proof.
  revert w. induction file_paths as [|f file_paths IH]; intros w.
  - exists [], w. split; [reflexivity|]. split; [reflexivity|].
    split; [apply grows_by_nothing|constructor].
  - destruct (process_single_file_grows f content_field output_file
                incremental_save env w) as (r & w1 & H1 & Hg & Hc).
    destruct (IH w1) as (rs & w2 & H2 & Hlen & Hg' & Hcs).
    rewrite (process_files_cons _ _ _ _ _ _ _ _ _ H1), H2.
    eexists _, _. split; [reflexivity|]. split; [simpl; lia|].
    split; [simpl; eapply grows_by_trans; eassumption|].
    constructor; assumption.
Qed.


(** X8: growth only. Over a run of [process_files] no tag leaves the pool,
    no count goes down, no file or unit identifier leaves the processed
    sets, and the requests sent before the run stay the first ones sent. *)
Theorem run_only_grows (env : Env) (file_paths : list str)
    (content_field output_file : option str) (incremental_save : bool)
    (w : World) :
  ∃ (rs : list file_result) (w' : World),
    process_files file_paths content_field output_file incremental_save
      env w = (Ok rs, w') ∧
    tag_pool (self w) ⊆ tag_pool (self w') ∧
    (∀ tag : str,
       (Store.count tag (tag_counter (self w)) ≤
        Store.count tag (tag_counter (self w')))%Z) ∧
    (Store.total (tag_counter (self w)) ≤
     Store.total (tag_counter (self w')))%Z ∧
    processed_files (self w) ⊆ processed_files (self w') ∧
    processed_articles (self w) ⊆ processed_articles (self w') ∧
    requests w `prefix_of` requests w'.
Proof.
  destruct (process_files_grows file_paths content_field output_file
              incremental_save env w)
    as (rs & w' & H & _ & (Hc & Hp & Hf & Ha & sent & Hr) & _).
  exists rs, w'. split; [exact H|].
  split; [rewrite Hp; set_solver|].
  split; [intros tag; rewrite Hc, count_update; unfold occurrences; lia|].
  split; [rewrite Hc, total_update; lia|].
  split; [exact Hf|]. split; [exact Ha|].
  exists sent. exact Hr.
Qed.

(** ** The summary of a run *)

Lemma add_articles_adds_up (rs : list file_result)
    (total ok bad skip : nat) :
  Forall counts_add_up rs → total = ok + bad + skip →
  let '(total', ok', bad', skip') :=
    fold_left (λ acc r, add_articles r acc) rs (total, ok, bad, skip) in
  total' = ok' + bad' + skip'.
Proof.
  intros Hrs. revert total ok bad skip.
  induction Hrs as [|r rs Hr _ IH]; intros total ok bad skip Hsum; simpl;
    [exact Hsum|].
  destruct r as [| |file n s f k results|]; simpl; try (apply IH; lia).
  destruct Hr as (_ & _ & _ & _ & Hn). apply IH. lia.
Qed.

Lemma count_files_partition (rs : list file_result) :
  count_files success rs + count_files failed rs + count_files skipped rs =
    length rs.
Proof.
  unfold count_files.
  induction rs as [|r rs IH]; simpl; [reflexivity|].
  destruct r; simpl; lia.
Qed.

(** X9: the summary [main] prints is consistent with the run. The numbers
    of successful, failed and skipped files add up to the number of files
    handed to [process_files], and the total number of articles is the sum
    of the successful, failed and skipped articles; in every per-file
    result of a JSON file, the count of processed articles is the length of
    its list of unit results and the sum of its three status counts. *)
Theorem summary_adds_up (env : Env) (file_paths : list str)
    (content_field output_file : option str) (incremental_save : bool)
    (w : World) :
  ∃ (rs : list file_result) (w' : World),
    process_files file_paths content_field output_file incremental_save
      env w = (Ok rs, w') ∧
    Forall counts_add_up rs ∧
    let s := summarize rs in
    success_count s + failed_count s + skipped_count s = length file_paths ∧
    total_articles s =
      successful_articles s + failed_articles s + skipped_articles s.
Proof.
  destruct (process_files_grows file_paths content_field output_file
              incremental_save env w) as (rs & w' & H & Hlen & _ & Hcs).
  exists rs, w'. split; [exact H|]. split; [exact Hcs|]. cbv zeta.
  unfold summarize.
  pose proof (add_articles_adds_up rs 0 0 0 0 Hcs eq_refl) as Hsum.
  destruct (fold_left _ rs (0, 0, 0, 0)) as [[[total ok] bad] skip].
  simpl. split; [rewrite count_files_partition; exact Hlen|exact Hsum].
Qed.

(** ** The documents on disk *)

Lemma str_leb_total (x y : str) : Str.leb x y = false → Str.leb y x = true.
Proof.
  revert y. induction x as [|a x IH]; intros [|b y]; simpl; try easy.
  destruct (a <? b)%N eqn:Eab; [easy|].
  destruct (b <? a)%N eqn:Eba; [easy|]. apply IH.
Qed.

Lemma str_leb_trans (x y z : str) :
  Str.leb x y = true → Str.leb y z = true → Str.leb x z = true.
Proof.
  revert y z. induction x as [|a x IH]; intros [|b y] [|c z]; simpl;
    try easy.
  destruct (a <? b)%N eqn:Eab, (b <? a)%N eqn:Eba,
           (b <? c)%N eqn:Ebc, (c <? b)%N eqn:Ecb,
           (a <? c)%N eqn:Eac, (c <? a)%N eqn:Eca;
    try easy;
    repeat match goal with
           | H : (_ <? _)%N = true |- _ => apply N.ltb_lt in H
           | H : (_ <? _)%N = false |- _ => apply N.ltb_ge in H
           end; try lia.
  apply IH.
Qed.

Lemma Sorted_weaken {A} (R R' : A → A → Prop) (l : list A) :
  (∀ x y, R x y → R' x y) → Sorted R l → Sorted R' l.
Proof.
  intros HR. induction 1 as [|x l Hl IH Hhd]; constructor; [exact IH|].
  destruct Hhd; constructor. auto.
Qed.

Lemma sorted_paths_sorted (paths : list str) :
  StronglySorted (λ x y, Str.leb x y = true) (Discover.sorted_paths paths).
Proof.
  apply Sorted_StronglySorted.
  { intros x y z. apply str_leb_trans. }
  unfold Discover.sorted_paths.
  eapply Sorted_weaken; [|apply sort_by_Sorted].
  - simpl. intros x y H. apply negb_false_iff in H. exact H.
  - intros x y H. apply negb_true_iff in H. apply str_leb_total in H.
    rewrite H. reflexivity.
Qed.

Lemma most_common_sorted (counter : list (str * Z)) :
  StronglySorted (λ x y, (snd y ≤ snd x)%Z) (Store.most_common counter).
Proof.
  apply Sorted_StronglySorted.
  { intros x y z. simpl. lia. }
  unfold Store.most_common.
  eapply Sorted_weaken; [|apply sort_by_Sorted].
  - simpl. intros x y H. apply Z.ltb_ge in H. exact H.
  - intros x y H. apply Z.ltb_lt in H. apply Z.ltb_ge. lia.
Qed.

(** X10: the documents [save_tags] writes. The tag-pool document lists
    every tag of the pool once, in ascending code-point order; the stats
    document counts these tags, holds every item of the counter once in
    order of descending count, sums their counts as the total of
    occurrences, and repeats the first ten as the top tags.
    [get_statistics] reports the same lists. *)
Theorem saved_documents_wellformed (w : World) :
  ∃ (tags : list str) (stats : StatsDoc),
    tags_json (disk (Persist.save_tags w)) = Some tags ∧
    stats_json (disk (Persist.save_tags w)) = Some stats ∧
    StronglySorted (λ x y, Str.leb x y = true) tags ∧
    NoDup tags ∧
    (∀ tag, tag ∈ tags ↔ tag ∈ tag_pool (self w)) ∧
    total_tags stats = length tags ∧
    tag_counts stats ≡ₚ tag_counter (self w) ∧
    StronglySorted (λ x y, (snd y ≤ snd x)%Z) (tag_counts stats) ∧
    total_occurrences stats = Store.total (tag_counts stats) ∧
    top_tags stats = take 10 (tag_counts stats) ∧
    stat_tag_list (get_statistics (self w)) = tags ∧
    stat_tag_counts (get_statistics (self w)) = tag_counts stats ∧
    stat_top_tags (get_statistics (self w)) = top_tags stats.
Proof.
  exists (Store.sorted (tag_pool (self w))), (Persist.stats_data (self w)).
  assert (Hperm : Store.sorted (tag_pool (self w)) ≡ₚ
                  elements (tag_pool (self w))) by apply sort_by_perm.
  split; [reflexivity|]. split; [reflexivity|].
  split; [apply sorted_paths_sorted|].
  split; [rewrite Hperm; apply NoDup_elements|].
  split; [intros tag; rewrite Hperm; apply elem_of_elements|].
  split; [simpl; rewrite Hperm; reflexivity|].
  split; [apply sort_by_perm|].
  split; [apply most_common_sorted|].
  split; [simpl; symmetry; apply total_perm, sort_by_perm|].
  repeat split.
Qed.

(** ** Saving and loading again *)

Lemma count_of_item (tag : str) (n : Z) (counter : list (str * Z)) :
  NoDup counter.*1 → (tag, n) ∈ counter → Store.count tag counter = n.
Proof.
  induction counter as [|[k m] counter IH]; simpl; intros Hnd Hin.
  - inversion Hin.
  - apply NoDup_cons in Hnd as [Hk Hnd].
    apply elem_of_cons in Hin as [[= <- <-]|Hin].
    + rewrite str_eqb_refl. reflexivity.
    + destruct (Str.eqb k tag) eqn:E; [|apply IH; assumption].
      apply str_eqb_eq in E as ->. exfalso. apply Hk.
      apply list_elem_of_fmap. exists (tag, n). auto.
Qed.

Lemma count_of_missing (tag : str) (counter : list (str * Z)) :
  tag ∉ counter.*1 → Store.count tag counter = 0%Z.
Proof.
  induction counter as [|[k m] counter IH]; simpl; [reflexivity|].
  rewrite not_elem_of_cons. intros [Hne Hout].
  destruct (Str.eqb k tag) eqn:E; [|apply IH, Hout].
  apply str_eqb_eq in E. congruence.
Qed.

Lemma count_perm (tag : str) (c c' : list (str * Z)) :
  NoDup c.*1 → c ≡ₚ c' → Store.count tag c = Store.count tag c'.
Proof.
  intros Hnd Hperm.
  assert (Hnd' : NoDup c'.*1) by (rewrite <- Hperm; exact Hnd).
  destruct (decide (tag ∈ c.*1)) as [Hin|Hout].
  - apply list_elem_of_fmap in Hin as ([k n] & -> & Hin). simpl.
    rewrite (count_of_item k n c Hnd Hin).
    rewrite Hperm in Hin. rewrite (count_of_item k n c' Hnd' Hin).
    reflexivity.
  - rewrite (count_of_missing tag c Hout).
    rewrite Hperm in Hout. rewrite (count_of_missing tag c' Hout).
    reflexivity.
Qed.

Lemma incr_NoDup (tag : str) (counter : list (str * Z)) :
  NoDup counter.*1 → NoDup (Store.incr tag counter).*1.
Proof.
  induction counter as [|[k n] counter IH]; simpl; intros Hnd.
  - apply NoDup_singleton.
  - apply NoDup_cons in Hnd as [Hk Hnd].
    destruct (Str.eqb k tag) eqn:E; simpl.
    + apply NoDup_cons. auto.
    + apply NoDup_cons. split; [|apply IH, Hnd].
      rewrite incr_keys. intros [->|Hin]; [|contradiction].
      rewrite str_eqb_refl in E. discriminate.
Qed.

Lemma update_NoDup (tags : list str) (counter : list (str * Z)) :
  NoDup counter.*1 → NoDup (Store.update tags counter).*1.
Proof.
  unfold Store.update. revert counter.
  induction tags as [|tag tags IH]; intros counter H; simpl; [exact H|].
  apply IH, incr_NoDup, H.
Qed.

(** X11: round trip through the disk. When the keys of the counter are
    pairwise distinct (as every merge keeps them), a new process that loads
    the three documents written by [save_tags] and [save_state] has the
    same tag pool, the same count for every tag, the same processed files
    and the same processed articles as the process that wrote them, and
    the keys of its counter are again pairwise distinct. *)
Theorem reload_restores_processor (w : World) :
  NoDup (tag_counter (self w)).*1 →
  let p := self (Persist.load_state
                   (restart (Persist.save_state (Persist.save_tags w)))) in
  same_store p (self w) ∧
  processed_files p = processed_files (self w) ∧
  processed_articles p = processed_articles (self w) ∧
  NoDup (tag_counter p).*1.
Proof.
  intros Hnd. cbv zeta. rewrite load_after_final_save. simpl.
  assert (Hperm : Store.most_common (tag_counter (self w)) ≡ₚ
                  tag_counter (self w)) by apply sort_by_perm.
  split; [split; [reflexivity|]|].
  - intros tag. simpl. symmetry. apply count_perm; [exact Hnd|].
    symmetry. exact Hperm.
  - split; [reflexivity|]. split; [reflexivity|].
    rewrite Hperm. exact Hnd.
Qed.

Lemma reload_restores_processor_witness :
  let w := {| self := Store.merge [u"天气"; u"运动"; u"天气"] init;
              disk := empty_disk; requests := [] |} in
  let p := self (Persist.load_state
                   (restart (Persist.save_state (Persist.save_tags w)))) in
  same_store p (self w) ∧
  processed_files p = processed_files (self w) ∧
  processed_articles p = processed_articles (self w) ∧
  NoDup (tag_counter p).*1.
Proof.
  intros w.
  apply (reload_restores_processor w).
  apply (update_NoDup [u"天气"; u"运动"; u"天气"] []). constructor.
Defined.

(** ** File discovery *)

(** X12: [find_article_files] returns, in ascending code-point order of
    their paths, exactly the entries of the tree that are files and whose
    suffix is [.txt], [.md] or [.json] whatever its case, each as often as
    the tree lists it; a data directory that does not exist gives no file.
    Every file found is handled either as JSON or as text by
    [process_single_file]. *)
Theorem find_article_files_sorted_filter (entries : list (str * bool)) :
  let files := Discover.find_article_files (Some entries) in
  Discover.find_article_files None = [] ∧
  StronglySorted (λ x y, Str.leb x y = true) files ∧
  files ≡ₚ (List.filter (λ e, snd e && Discover.supported (fst e)) entries).*1 ∧
  (∀ f : str,
     f ∈ files ↔ (f, true) ∈ entries ∧ Discover.supported f = true) ∧
  (∀ f : str,
     Discover.supported f = true ↔
     map Str.ascii_lower (Path.suffix f) ∈ [u".txt"; u".md"; u".json"]) ∧
  (∀ f : str,
     Path.is_json f = true ↔ map Str.ascii_lower (Path.suffix f) = u".json").
Proof.
  cbv zeta.
  assert (Hperm : Discover.find_article_files (Some entries) ≡ₚ
            (List.filter (λ e, snd e && Discover.supported (fst e))
               entries).*1) by apply sort_by_perm.
  split; [reflexivity|]. split; [apply sorted_paths_sorted|].
  split; [exact Hperm|]. split; [|split].
  - intros f. rewrite Hperm, list_elem_of_fmap. split.
    + intros ([p isf] & -> & Hin). apply list_elem_of_In, filter_In in Hin.
      destruct Hin as [Hin Hok]. simpl in *.
      apply andb_true_iff in Hok as [-> Hs].
      split; [apply list_elem_of_In, Hin|exact Hs].
    + intros [Hin Hs]. exists (f, true). split; [reflexivity|].
      apply list_elem_of_In, filter_In. split; [apply list_elem_of_In, Hin|].
      simpl. exact Hs.
  - intros f. unfold Discover.supported, Discover.SUPPORTED.
    rewrite existsb_exists. split.
    + intros (x & Hin & Heq). apply str_eqb_eq in Heq as ->.
      apply list_elem_of_In, Hin.
    + intros Hin. exists (map Str.ascii_lower (Path.suffix f)).
      split; [apply list_elem_of_In, Hin|apply str_eqb_refl].
  - intros f. unfold Path.is_json. apply str_eqb_eq.
Qed.

(** ** Settings *)

(** X13: [Settings()] fails exactly when [OPENAI_API_KEY] is unset or empty
    or [int] rejects [MAX_WORKERS] (taken as [4] when unset); when it
    succeeds the key is not empty, every other option is the value of its
    variable or its documented default, and [validate] is true exactly when
    the data directory exists and is a directory. *)
Theorem settings_init_validate (os : Settings.Os) :
  let key := Settings.getenv os (u"OPENAI_API_KEY") [] in
  let workers := Settings.int_of_str os (Settings.getenv os (u"MAX_WORKERS")
                                           (u"4")) in
  (Settings.init os = None ↔ key = [] ∨ workers = None) ∧
  ∀ s : Settings.t,
    Settings.init os = Some s →
    Settings.openai_api_key s = key ∧ key ≠ [] ∧
    Some (Settings.max_workers s) = workers ∧
    Settings.openai_base_url s =
      default (u"https://api.openai.com/v1")
              (Settings.environ os (u"OPENAI_BASE_URL")) ∧
    Settings.openai_model s =
      default (u"gpt-3.5-turbo") (Settings.environ os (u"OPENAI_MODEL")) ∧
    Settings.output_file s =
      default (u"tags.json") (Settings.environ os (u"OUTPUT_FILE")) ∧
    Settings.data_dir s =
      default (u"post-tags/data") (Settings.environ os (u"DATA_DIR")) ∧
    Settings.validate os s =
      Settings.path_exists os (Settings.data_dir s) &&
      Settings.path_isdir os (Settings.data_dir s).
Proof.
  cbv zeta. unfold Settings.init.
  destruct (Settings.int_of_str os _) as [n|] eqn:En.
  - destruct (Settings.getenv os (u"OPENAI_API_KEY") []) as [|c k] eqn:Ek.
    + split; [split; [auto|reflexivity]|]. intros s [=].
    + split; [split; [discriminate|intros [[=]|[=]]]|].
      intros s [= <-]. unfold Settings.validate, Settings.getenv. simpl.
      repeat split; try easy;
        try (destruct (Settings.environ os _); reflexivity).
      destruct (Settings.path_exists os _), (Settings.path_isdir os _);
        reflexivity.
  - split; [split; [auto|reflexivity]|]. intros s [=].
Qed.

(** ** The exit status *)



(** ** The store under interleaving *)

Lemma step_store_invariant (env : Env) (t : Worker.task) (p : Worker.pc)
    (w : World) :
  store_invariant (self w) →
  store_invariant (self (Worker.step env t p w).2).
Proof.
  intros Hinv.
  destruct p as [| |[|a todo] done|a todo done|a tags todo done
                 |a tags todo done|results|content|content tags|r|e];
    cbn [Worker.step].
  - destruct (decide _); exact Hinv.
  - destruct (Path.is_json _).
    + destruct (Extract.read_json_articles _ _ _); exact Hinv.
    + destruct (Extract.read_article _ _ _); exact Hinv.
  - exact Hinv.
  - destruct (decide _); [exact Hinv|]. destruct (content a); exact Hinv.
  - destruct (generate_tags_ok (content a) env w)
      as ([|x xs] & w1 & -> & Hs & _); simpl; rewrite Hs; exact Hinv.
  - simpl.
    destruct (merge_block_self tags (Worker.output_file t)
                (Worker.incremental_save t) w) as [-> _].
    apply merge_invariant, Hinv.
  - destruct Hinv as [Hk Hp]. split; [exact Hk|exact Hp].
  - destruct Hinv as [Hk Hp]. split; [exact Hk|exact Hp].
  - destruct (generate_tags_ok content env w)
      as ([|x xs] & w1 & -> & Hs & _); simpl; rewrite Hs; exact Hinv.
  - simpl. apply merge_invariant, Hinv.
  - exact Hinv.
  - exact Hinv.
Qed.

(** X15: the merge section is one step of a worker, so under every schedule
    of any number of workers the Aggregation Store invariant (the pool is
    the key set of the counter, every count is at least 1) holds after
    every step when it holds at the start. *)
Theorem store_invariant_under_any_schedule (env : Env)
    (tasks : list Worker.task) (schedule : list nat) (w : World) :
  store_invariant (self w) →
  store_invariant
    (self (Worker.world (Worker.run env schedule (Worker.start tasks w)))).
Proof.
  intros Hinv.
  assert (H : ∀ s, store_invariant (self (Worker.world s)) →
                   store_invariant
                     (self (Worker.world (Worker.run env schedule s)))).
  { induction schedule as [|i schedule IH]; intros s Hs; [exact Hs|].
    simpl. apply IH. unfold Worker.move.
    destruct (Worker.threads s !! i) as [[t p]|]; [|exact Hs].
    pose proof (step_store_invariant env t p (Worker.world s) Hs) as Hstep.
    destruct (Worker.step env t p (Worker.world s)) as [p' w']. exact Hstep. }
  apply H. exact Hinv.
Qed.

Lemma store_invariant_under_any_schedule_witness :
  store_invariant
    (self (Worker.world
             (Worker.run Sample.twin_corpus Sample.both_check_first
                (Worker.start Sample.twin_tasks fresh)))).
Proof.
  apply (store_invariant_under_any_schedule Sample.twin_corpus
           Sample.twin_tasks Sample.both_check_first fresh).
  split; [simpl; set_solver|constructor].
Defined.

(** ** Requests to the service *)

Lemma sends_nothing (w : World) : sends 0 w w.
Proof. exists []. rewrite app_nil_r. repeat split. constructor. Qed.

Lemma sends_trans (n m : nat) (w w1 w2 : World) :
  sends n w w1 → sends m w1 w2 → sends (n + m) w w2.
Proof.
  intros (s & Hr & Hl & Hs) (s' & Hr' & Hl' & Hs').
  exists (s ++ s'). rewrite Hr', Hr, app_assoc, length_app.
  split; [reflexivity|]. split; [lia|]. apply Forall_app. auto.
Qed.

Lemma sends_same_requests (n : nat) (w w1 w2 : World) :
  requests w2 = requests w1 → sends n w w1 → sends n w w2.
Proof. intros H (s & Hr & Hl). exists s. rewrite H. auto. Qed.

Lemma generate_tags_sends (c : char) (s : str) (env : Env) (w : World) :
  ∃ tags w', generate_tags (c :: s) env w = (Ok tags, w') ∧
             self w' = self w ∧ disk w' = disk w ∧ sends 1 w w'.
Proof.
  rewrite generate_tags_eq. eexists _, _. split; [reflexivity|].
  split; [reflexivity|]. split; [reflexivity|].
  exists [take 3000 (c :: s)]. split; [reflexivity|]. split; [reflexivity|].
  constructor; [|constructor].
  rewrite length_take. cbn [length]. lia.
Qed.

Lemma process_single_article_sends (a : article) (file_name : str)
    (output_file : option str) (incremental_save : bool) (env : Env)
    (w : World) :
  ∃ res w',
    process_single_article a file_name output_file incremental_save env w =
      (Ok res, w') ∧
    sends (article_requests res) w w' ∧
    (content a ≠ [] → ∀ id, res ≠ ArticleFailed id empty_content).
Proof.
  rewrite process_single_article_eq. cbv zeta.
  destruct (decide _);
    [eexists _, _; split; [reflexivity|split; [apply sends_nothing|easy]]|].
  destruct (content a) as [|c s];
    [eexists _, _; split; [reflexivity|split; [apply sends_nothing|easy]]|].
  destruct (generate_tags_sends c s env w)
    as ([|x xs] & w1 & -> & Hs & Hd & Hsend).
  - eexists _, _. split; [reflexivity|]. split; [exact Hsend|easy].
  - eexists _, _. split; [reflexivity|]. split; [|easy].
    eapply sends_same_requests; [|exact Hsend]. simpl.
    apply merge_block_self.
Qed.

Lemma for_each_articles_sends (file_name : str) (output_file : option str)
    (incremental_save : bool) (articles : list article) (env : Env)
    (w : World) :
  ∃ results w',
    for_each (λ a, process_single_article a file_name output_file
                     incremental_save) articles env w = (Ok results, w') ∧
    sends (sum_list (map article_requests results)) w w' ∧
    (Forall (λ a, content a ≠ []) articles →
     Forall (λ res, ∀ id, res ≠ ArticleFailed id empty_content) results).
Proof.
  revert w. induction articles as [|a articles IH]; intros w.
  - exists [], w. split; [reflexivity|].
    split; [apply sends_nothing|constructor].
  - rewrite for_each_cons.
    destruct (process_single_article_sends a file_name output_file
                incremental_save env w) as (r & w1 & -> & Hs & Hne).
    destruct (IH w1) as (rs & w2 & -> & Hs' & Hne').
    eexists _, _. split; [reflexivity|].
    split; [simpl; eapply sends_trans; eassumption|].
    intros Hall. inversion Hall; subst. constructor; auto.
Qed.

Lemma read_json_articles_nonempty (env : Env) (file_path : str)
    (content_field : option str) :
  Forall (λ a, content a ≠ [])
         (Extract.read_json_articles env file_path content_field).
Proof.
  unfold Extract.read_json_articles.
  destruct (load_json env file_path) as [[| |data|]|]; try constructor.
  rewrite Forall_forall. intros a Ha.
  apply articles_from_elem in Ha as (k & d & _ & _ & _ & Hne & _).
  exact Hne.
Qed.

Lemma process_single_file_sends (file_path : str)
    (content_field output_file : option str) (incremental_save : bool)
    (env : Env) (w : World) :
  ∃ r w',
    process_single_file file_path content_field output_file incremental_save
      env w = (Ok r, w') ∧
    sends (file_requests r) w w' ∧
    ∀ file n s f k results,
      r = FileArticles file n s f k results →
      Forall (λ res, ∀ id, res ≠ ArticleFailed id empty_content) results.
Proof.
  rewrite process_single_file_eq. cbv zeta.
  destruct (decide _);
    [eexists _, _; split; [reflexivity|split; [apply sends_nothing|easy]]|].
  destruct (Path.is_json file_path).
  - pose proof (read_json_articles_nonempty env file_path content_field)
      as Hne.
    destruct (Extract.read_json_articles env file_path content_field)
      as [|a l];
      [eexists _, _; split; [reflexivity|split; [apply sends_nothing|easy]]|].
    destruct (for_each_articles_sends (Path.basename file_path) output_file
                incremental_save (a :: l) env w)
      as (rs & w1 & -> & Hs & Hres).
    eexists _, _. split; [reflexivity|]. split.
    + eapply sends_same_requests; [|exact Hs]. reflexivity.
    + intros ? ? ? ? ? ? [= _ _ _ _ _ <-]. apply Hres, Hne.
  - destruct (Extract.read_article env file_path content_field) as [|c s];
      [eexists _, _; split; [reflexivity|split; [apply sends_nothing|easy]]|].
    destruct (generate_tags_sends c s env w)
      as ([|x xs] & w1 & -> & Hs & Hd & Hsend).
    + eexists _, _. split; [reflexivity|]. split; [exact Hsend|easy].
    + eexists _, _. split; [reflexivity|]. split; [|easy].
      eapply sends_same_requests; [|exact Hsend]. reflexivity.
Qed.


(** X17: the empty-content guard. A text file that cannot be read, or
    whose content is white space only, fails with [empty_content] and
    nothing is sent or changed; and no unit of a JSON file is ever reported
    failed for [empty_content], since the extractor hands over no unit
    without text. *)
Theorem empty_content_guard (env : Env) (file_path : str)
    (content_field output_file : option str) (incremental_save : bool)
    (w : World) :
  (Path.is_json file_path = false →
   file_path ∉ processed_files (self w) →
   (∀ text, read_text env file_path = Some text →
            Forall (λ c, Str.isspace c = true) text) →
   process_single_file file_path content_field output_file incremental_save
     env w = (Ok (FileFailed (Path.basename file_path) empty_content), w)) ∧
  (∀ r w',
     process_single_file file_path content_field output_file
       incremental_save env w = (Ok r, w') →
     ∀ file n s f k results,
       r = FileArticles file n s f k results →
       Forall (λ res, ∀ id, res ≠ ArticleFailed id empty_content) results).
Proof.
  split.
  - intros Hjson Hnew Hblank. rewrite process_single_file_eq. cbv zeta.
    destruct (decide _); [contradiction|]. rewrite Hjson.
    unfold Extract.read_article. rewrite Hjson.
    destruct (read_text env file_path) as [text|]; [|reflexivity].
    unfold Str.strip. rewrite (strip_by_all _ _ (Hblank text eq_refl)).
    reflexivity.
  - intros r w' Hrun.
    destruct (process_single_file_sends file_path content_field output_file
                incremental_save env w) as (r0 & w0 & Hrun0 & _ & H).
    rewrite Hrun in Hrun0. injection Hrun0 as <- <-. exact H.
Qed.

(** X18: a file that is not JSON is never recorded and never saved.
    Whatever [incremental_save] says, [process_single_file] on such a file
    writes no document and adds nothing to the processed files or
    articles; when it succeeds the processor is the one before it with the
    reported tags merged. *)
Theorem text_file_leaves_disk_and_progress (env : Env) (file_path : str)
    (content_field output_file : option str) (incremental_save : bool)
    (w : World) :
  Path.is_json file_path = false →
  ∃ (r : file_result) (w' : World),
    process_single_file file_path content_field output_file incremental_save
      env w = (Ok r, w') ∧
    disk w' = disk w ∧
    processed_files (self w') = processed_files (self w) ∧
    processed_articles (self w') = processed_articles (self w) ∧
    self w' = Store.merge (reported_tags r) (self w) ∧
    (∀ file n s f k results, r ≠ FileArticles file n s f k results).
Proof.
  intros Hjson. rewrite process_single_file_eq. cbv zeta.
  assert (Hnone : ∀ p : TagProcessor, p = Store.merge [] p).
  { intros [pool counter pf pa]. unfold Store.merge. simpl.
    f_equal. set_solver. }
  destruct (decide _);
    [eexists _, _; split; [reflexivity|]; repeat split; auto|].
  rewrite Hjson.
  destruct (Extract.read_article env file_path content_field) as [|c s];
    [eexists _, _; split; [reflexivity|]; repeat split; auto|].
  destruct (generate_tags_sends c s env w)
    as ([|x xs] & w1 & -> & Hs & Hd & _).
  - eexists _, _. split; [reflexivity|]. simpl. rewrite Hs, Hd.
    repeat split; auto.
  - eexists _, _. split; [reflexivity|]. simpl. rewrite Hs, Hd.
    repeat split; auto.
Qed.

Lemma text_file_leaves_disk_and_progress_witness :
  ∃ (r : file_result) (w' : World),
    process_single_file (u"post-tags/data/a.txt") (Some (u"content"))
      (Some OUTPUT_FILE) true Sample.text_corpus fresh = (Ok r, w') ∧
    disk w' = disk fresh ∧
    processed_files (self w') = processed_files (self fresh) ∧
    processed_articles (self w') = processed_articles (self fresh) ∧
    self w' = Store.merge (reported_tags r) (self fresh) ∧
    (∀ file n s f k results, r ≠ FileArticles file n s f k results).
Proof.
  apply (text_file_leaves_disk_and_progress Sample.text_corpus
           (u"post-tags/data/a.txt") (Some (u"content")) (Some OUTPUT_FILE)
           true fresh).
  reflexivity.
Defined.
